(** * OpaqueDEX: fixed-rate confidential swap and its client

    A shallow embedding of
    - the [OpaqueSwap] contract (Solidity, carried in deploy/opaqueSwap.ts),
    - the ledger interface [IERC7984] it calls and the access control the
      FHE library applies to encrypted amounts, and
    - the decrypt / refresh / transaction logic of the [DexApp] React
      component,
    together with the properties the specification states about them. *)

From Stdlib Require Import ZArith Lia Ascii.
From stdpp Require Import base option gmap strings list fin_maps pretty.

Local Open Scope Z_scope.

(** * Part I: the model *)

(** ** Encrypted 64-bit integers

    An [euint64] is a handle on chain: an opaque reference to a ciphertext.
    The embedding pairs a handle with the cleartext it encrypts, an integer
    in [0, 2^64).  The homomorphic operators act on the cleartext and wrap
    around at 64 bits (no operator can branch on, or revert on, an
    encrypted value).  Which contract may use which handle is decided by
    the access control list, modelled with the chain below. *)
Module FHE.

Definition modulus : Z := 18446744073709551616.

Definition in_range (v : Z) : Prop := 0 ≤ v < modulus.

Definition in_rangeb (v : Z) : bool := (0 <=? v) && (v <? modulus).

Definition wrap (v : Z) : Z := v mod modulus.

(** [FHE.mul(euint64, uint64)] *)
Definition mul (a b : Z) : Z := wrap (a * b).

(** [FHE.div(euint64, uint64)]: the divisor is a cleartext constant. *)
Definition div (a b : Z) : Z := a / b.

(** [FHE.add] and [FHE.sub], used by the ledger's transfer accounting. *)
Definition add (a b : Z) : Z := wrap (a + b).
Definition sub (a b : Z) : Z := wrap (a - b).

End FHE.

(** Handles.  The handle of an encrypted input is the one the client
    submits; the handle of an operator's result is determined by the
    operator and by what it is applied to. *)
Inductive Handle : Type :=
  | Input (h : Z)
  | Product (a : Handle) (b : Z)     (* the result of FHE.mul(a, b) *)
  | Quotient (a : Handle) (b : Z).   (* the result of FHE.div(a, b) *)

#[global] Instance Handle_eq_dec : EqDecision Handle.
Proof. solve_decision. Defined.

(** An encrypted amount a contract holds in a variable: the handle, which
    access control is about, and the cleartext behind it, which amounts
    and balances are about. *)
Record euint64 : Type := {
  handle_of : Handle;
  cleartext :> Z
}.

(** ** Reverts *)

Inductive Error : Type :=
  | InvalidTokenAddress
  | InvalidInput
  | NotAContract (a : Z)
  | UnauthorizedSpender (holder spender : Z)
  | InsufficientBalance (holder : Z)
  | ACLNotAllowed (h : Handle) (account : Z)
  | SenderNotAllowed (account : Z).

Inductive outcome (A : Type) : Type :=
  | Ok (a : A)
  | Revert (e : Error).
Arguments Ok {A} a.
Arguments Revert {A} e.

(** ** The confidential ledger (one instance per asset) *)

(** What a transfer primitive does when the holder's balance does not
    cover the requested amount.  The specification allows a ledger to
    "clamp against available balance" or to "reject atomically"; the three
    readings of that sentence are kept apart here, and each ledger carries
    its own. *)
Inductive ShortfallPolicy : Type :=
  | TransferNothing    (* clamp: an uncovered request moves zero *)
  | TransferAvailable  (* clamp: an uncovered request moves the balance *)
  | RejectCall.        (* the call fails *)

(** Modelled from the spec: the amount a transfer actually moves
    (section 4.2, "returns the actually transferred encrypted amount";
    section 7, "clamp or reject atomically rather than underflow"). *)
Definition settle (p : ShortfallPolicy) (available requested : Z) : option Z :=
  if requested <=? available then Some requested
  else match p with
       | TransferNothing => Some 0
       | TransferAvailable => Some available
       | RejectCall => None
       end.

(** Modelled from the spec: the state of one ledger contract (section 3,
    Balance and OperatorGrant): one encrypted amount per account (an absent
    entry is the uninitialised zero handle) and, per (owner, delegate), the
    expiry of the latest grant. *)
Record Ledger : Type := {
  shortfall : ShortfallPolicy;
  balances : gmap Z Z;
  operators : gmap (Z * Z) Z
}.

Definition balanceOf (l : Ledger) (account : Z) : Z :=
  default 0 (balances l !! account).

(** Modelled from the spec: [isOperator] holds iff an unexpired grant
    exists, i.e. [currentTime < expiresAt]. *)
Definition isOperator (l : Ledger) (now owner delegate : Z) : bool :=
  match operators l !! (owner, delegate) with
  | Some expiresAt => now <? expiresAt
  | None => false
  end.

(** Modelled from the spec: [setOperator] is called by the owner and
    replaces any prior grant for that delegate. *)
Definition setOperator (l : Ledger) (msg_sender delegate expiresAt : Z) : Ledger :=
  {| shortfall := shortfall l;
     balances := balances l;
     operators := <[(msg_sender, delegate) := expiresAt]> (operators l) |}.

(** Modelled from the spec: the test faucet. *)
Definition mint (l : Ledger) (to amount : Z) : Ledger :=
  {| shortfall := shortfall l;
     balances := <[to := FHE.add (balanceOf l to) amount]> (balances l);
     operators := operators l |}.

(** Modelled from the spec: debit then credit of the settled amount. *)
Definition move (l : Ledger) (from to amount : Z) : outcome (Z * Ledger) :=
  match settle (shortfall l) (balanceOf l from) amount with
  | None => Revert (InsufficientBalance from)
  | Some transferred =>
      let debited := <[from := FHE.sub (balanceOf l from) transferred]> (balances l) in
      let credited :=
        <[to := FHE.add (default 0 (debited !! to)) transferred]> debited in
      Ok (transferred,
          {| shortfall := shortfall l; balances := credited; operators := operators l |})
  end.

(** A ledger compares the amount it is handed with a balance and adds it
    to another: it computes on the handle.  The FHE library (a dependency,
    not among the sources) lets a contract compute on a handle only if the
    access control list names that contract for it, and reverts the call
    with [ACLNotAllowed] otherwise; the specification's data model says as
    much of an encrypted amount: it is bound to the contract it was issued
    for and meaningless outside that context (section 3).  [allowed] is
    the list as the call finds it, [self] the ledger's own address. *)
Definition computing_on {A} (allowed : Handle → Z → bool) (self : Z) (amount : euint64)
    (k : outcome A) : outcome A :=
  if allowed (handle_of amount) self then k
  else Revert (ACLNotAllowed (handle_of amount) self).

(** Modelled from the spec: [confidentialTransfer(to, amount)], a debit of
    the caller, computed on the amount handed in. *)
Definition confidentialTransfer (l : Ledger) (allowed : Handle → Z → bool)
    (self msg_sender to : Z) (amount : euint64) : outcome (Z * Ledger) :=
  computing_on allowed self amount (move l msg_sender to amount).

(** Modelled from the spec: [confidentialTransferFrom(from, to, amount)]
    requires [isOperator(from, caller)] at call time and fails otherwise;
    only then does it compute on the amount. *)
Definition confidentialTransferFrom (l : Ledger) (allowed : Handle → Z → bool)
    (now self msg_sender from to : Z) (amount : euint64) : outcome (Z * Ledger) :=
  if isOperator l now from msg_sender
  then computing_on allowed self amount (move l from to amount)
  else Revert (UnauthorizedSpender from msg_sender).

(** Total supply of an asset: the sum of all recorded balances. *)
Definition supply (l : Ledger) : Z :=
  map_fold (λ (_ : Z) (v acc : Z), v + acc) 0 (balances l).

(** The sum of a balance mapping. *)
Definition total (m : gmap Z Z) : Z := map_fold (λ (_ : Z) (v acc : Z), v + acc) 0 m.

(** A ledger whose balances are 64-bit amounts and whose supply fits 64
    bits (so that crediting never wraps). *)
Definition ledger_wf (l : Ledger) : Prop :=
  map_Forall (λ _ v, 0 ≤ v) (balances l) ∧ supply l < FHE.modulus.

(** ** Encrypted inputs

    Modelled from the spec: an encrypted input is a handle together with a
    proof bound to one (contract, account) pair (section 4.4,
    encrypt-for-submission).  The proof attests the cleartext behind each
    handle it covers. *)
Record InputProof : Type := {
  bound_contract : Z;
  bound_account : Z;
  attested : list (Z * Z)   (* handle, cleartext *)
}.

Fixpoint attested_value (h : Z) (l : list (Z * Z)) : option Z :=
  match l with
  | [] => None
  | (h', v) :: rest => if h =? h' then Some v else attested_value h rest
  end.

(** The verification behind [FHE.fromExternal(handle, inputProof)],
    evaluated in contract [this] on behalf of [msg_sender]: it fails on a
    proof that is bound to another contract or account, that does not
    cover the handle, or whose value is not a 64-bit amount. *)
Definition fromExternal (this msg_sender : Z) (handle : Z) (inputProof : InputProof)
  : outcome Z :=
  if (bound_contract inputProof =? this) && (bound_account inputProof =? msg_sender) then
    match attested_value handle (attested inputProof) with
    | Some v => if FHE.in_rangeb v then Ok v else Revert InvalidInput
    | None => Revert InvalidInput
    end
  else Revert InvalidInput.

(** ** The chain and the execution of a call *)

(** The events name two handles; the embedding records the cleartext
    behind each.  The same goes for the amount a ledger call returns: no
    access check ever concerns that handle. *)
Inductive Event : Type :=
  | SwapWethForWusdt (user amountIn amountOut : Z)
  | SwapWusdtForWeth (user amountIn amountOut : Z).

(** The access control list holds (handle, account) pairs: those granted
    for good ([ACL.allow]) and those granted until the transaction ends
    ([ACL.allowTransient]). *)
Record Chain : Type := {
  tokens : gmap Z Ledger;      (* the ledger contracts, by address *)
  timestamp : Z;               (* block.timestamp *)
  logs : list Event;
  acl : list (Handle * Z);
  transient : list (Handle * Z)
}.

Definition set_token (c : Chain) (a : Z) (l : Ledger) : Chain :=
  {| tokens := <[a := l]> (tokens c); timestamp := timestamp c; logs := logs c;
     acl := acl c; transient := transient c |}.

Definition add_log (c : Chain) (e : Event) : Chain :=
  {| tokens := tokens c; timestamp := timestamp c; logs := logs c ++ [e];
     acl := acl c; transient := transient c |}.

Definition listed (pairs : list (Handle * Z)) (h : Handle) (account : Z) : bool :=
  bool_decide ((h, account) ∈ pairs).

(** [ACL.isAllowed(handle, account)] *)
Definition isAllowed (c : Chain) (h : Handle) (account : Z) : bool :=
  listed (transient c) h account || listed (acl c) h account.

Definition allow (c : Chain) (h : Handle) (account : Z) : Chain :=
  {| tokens := tokens c; timestamp := timestamp c; logs := logs c;
     acl := (h, account) :: acl c; transient := transient c |}.

Definition allowTransient (c : Chain) (h : Handle) (account : Z) : Chain :=
  {| tokens := tokens c; timestamp := timestamp c; logs := logs c;
     acl := acl c; transient := (h, account) :: transient c |}.

(** Transient grants do not outlive the transaction. *)
Definition end_transaction (c : Chain) : Chain :=
  {| tokens := tokens c; timestamp := timestamp c; logs := logs c;
     acl := acl c; transient := [] |}.

(** The body of a contract function: it runs on the chain state and ends
    either normally or in a revert.  The state paired with a revert is the
    state reached when the revert was raised; undoing it is the job of the
    platform ([transact] below), not of the body. *)
Definition EVM (A : Type) : Type := Chain → outcome A * Chain.

#[global] Instance evm_ret : MRet EVM := λ A a c, (Ok a, c).

#[global] Instance evm_bind : MBind EVM := λ A B f m c,
  match m c with
  | (Ok a, c') => f a c'
  | (Revert e, c') => (Revert e, c')
  end.

Definition lift {A} (o : outcome A) : EVM A := λ c, (o, c).

Definition emit (e : Event) : EVM unit := λ c, (Ok tt, add_log c e).

(** A call into the ledger contract at address [a]. *)
Definition call_ledger (a : Z) (f : Chain → Ledger → outcome (Z * Ledger)) : EVM Z := λ c,
  match tokens c !! a with
  | None => (Revert (NotAContract a), c)
  | Some l =>
      match f c l with
      | Ok (r, l') => (Ok r, set_token c a l')
      | Revert e => (Revert e, c)
      end
  end.

(** All-or-nothing execution of a transaction, as the platform provides
    it: the state changes of a reverted call are discarded. *)
Definition transact {A} (body : EVM A) : EVM A := λ c,
  match body c with
  | (Ok a, c') => (Ok a, end_transaction c')
  | (Revert e, _) => (Revert e, c)
  end.

(** ** The FHE library, as a contract [this] calls it *)
Module FHEVM.

(** [FHE.fromExternal(handle, inputProof)]: once the proof is verified
    the calling contract may use the handle for the rest of the
    transaction. *)
Definition fromExternal (this msg_sender handle : Z) (inputProof : InputProof)
  : EVM euint64 := λ c,
  match fromExternal this msg_sender handle inputProof with
  | Ok v => (Ok {| handle_of := Input handle; cleartext := v |},
             allowTransient c (Input handle) this)
  | Revert e => (Revert e, c)
  end.

(** An operator on an encrypted operand: the caller must be allowed on
    the operand and may use the result for the rest of the transaction. *)
Definition operate (this : Z) (operand result : euint64) : EVM euint64 := λ c,
  if isAllowed c (handle_of operand) this
  then (Ok result, allowTransient c (handle_of result) this)
  else (Revert (ACLNotAllowed (handle_of operand) this), c).

(** [FHE.mul(a, b)] and [FHE.div(a, b)] for a cleartext [b]. *)
Definition mul (this : Z) (a : euint64) (b : Z) : EVM euint64 :=
  operate this a {| handle_of := Product (handle_of a) b; cleartext := FHE.mul a b |}.

Definition div (this : Z) (a : euint64) (b : Z) : EVM euint64 :=
  operate this a {| handle_of := Quotient (handle_of a) b; cleartext := FHE.div a b |}.

End FHEVM.

(** ** The OpaqueSwap contract *)

Module OpaqueSwap.

Definition WETH_TO_WUSDT_RATE : Z := 3100.

(** The deployed contract: its own address and the two immutables. *)
Record t : Type := {
  this : Z;
  wETH : Z;
  wUSDT : Z
}.

(** [constructor(address wethAddress, address wusdtAddress)], running at
    the address [self] the deployment assigns. *)
Definition constructor (self wethAddress wusdtAddress : Z) : outcome t :=
  if (wethAddress =? 0) || (wusdtAddress =? 0) then Revert InvalidTokenAddress
  else Ok {| this := self; wETH := wethAddress; wUSDT := wusdtAddress |}.

(** The contracts deployed so far, and the deployment of one more: a
    constructor that reverts leaves no contract behind. *)
Definition deploy (deployed : gmap Z t) (self wethAddress wusdtAddress : Z)
  : outcome Z * gmap Z t :=
  match constructor self wethAddress wusdtAddress with
  | Ok sw => (Ok self, <[self := sw]> deployed)
  | Revert e => (Revert e, deployed)
  end.

Definition getTokenAddresses (sw : t) : Z * Z := (wETH sw, wUSDT sw).

(** [FHE.allowThis(x)], that is [ACL.allow(x, address(this))]: the
    contract, which must itself be allowed on the handle, is granted it for
    good.  No other account is granted anything. *)
Definition allowThis (sw : t) (x : euint64) : EVM unit := λ c,
  if isAllowed c (handle_of x) (this sw)
  then (Ok tt, allow c (handle_of x) (this sw))
  else (Revert (SenderNotAllowed (this sw)), c).

Definition wETH_confidentialTransferFrom (sw : t) (from to : Z) (amount : euint64)
  : EVM Z :=
  call_ledger (wETH sw)
    (λ c l, confidentialTransferFrom l (isAllowed c) (timestamp c) (wETH sw) (this sw)
              from to amount).

Definition wUSDT_confidentialTransferFrom (sw : t) (from to : Z) (amount : euint64)
  : EVM Z :=
  call_ledger (wUSDT sw)
    (λ c l, confidentialTransferFrom l (isAllowed c) (timestamp c) (wUSDT sw) (this sw)
              from to amount).

Definition wETH_confidentialTransfer (sw : t) (to : Z) (amount : euint64) : EVM Z :=
  call_ledger (wETH sw)
    (λ c l, confidentialTransfer l (isAllowed c) (wETH sw) (this sw) to amount).

Definition wUSDT_confidentialTransfer (sw : t) (to : Z) (amount : euint64) : EVM Z :=
  call_ledger (wUSDT sw)
    (λ c l, confidentialTransfer l (isAllowed c) (wUSDT sw) (this sw) to amount).

Definition swapWethForWusdt (sw : t) (msg_sender : Z)
    (encryptedWethAmount : Z) (inputProof : InputProof) : EVM Z :=
  amountIn ← FHEVM.fromExternal (this sw) msg_sender encryptedWethAmount inputProof;
  amountOut ← FHEVM.mul (this sw) amountIn WETH_TO_WUSDT_RATE;
  _ ← allowThis sw amountIn;
  _ ← allowThis sw amountOut;
  _ ← wETH_confidentialTransferFrom sw msg_sender (this sw) amountIn;
  transferredOut ← wUSDT_confidentialTransfer sw msg_sender amountOut;
  _ ← emit (SwapWethForWusdt msg_sender (cleartext amountIn) transferredOut);
  mret transferredOut.

Definition swapWusdtForWeth (sw : t) (msg_sender : Z)
    (encryptedUsdtAmount : Z) (inputProof : InputProof) : EVM Z :=
  amountIn ← FHEVM.fromExternal (this sw) msg_sender encryptedUsdtAmount inputProof;
  amountOut ← FHEVM.div (this sw) amountIn WETH_TO_WUSDT_RATE;
  _ ← allowThis sw amountIn;
  _ ← allowThis sw amountOut;
  _ ← wUSDT_confidentialTransferFrom sw msg_sender (this sw) amountIn;
  transferredOut ← wETH_confidentialTransfer sw msg_sender amountOut;
  _ ← emit (SwapWusdtForWeth msg_sender (cleartext amountIn) transferredOut);
  mret transferredOut.

End OpaqueSwap.

(** The rate converter of the specification. *)
Definition forward (amountIn : Z) : Z := FHE.mul amountIn OpaqueSwap.WETH_TO_WUSDT_RATE.
Definition reverse (amountIn : Z) : Z := FHE.div amountIn OpaqueSwap.WETH_TO_WUSDT_RATE.

(** ** A swap as a sequence of sub-steps *)

Definition token_balance (c : Chain) (token account : Z) : Z :=
  match tokens c !! token with
  | Some l => balanceOf l account
  | None => 0
  end.

Definition token_supply (c : Chain) (token : Z) : Z :=
  match tokens c !! token with
  | Some l => supply l
  | None => 0
  end.

(** The two directions of a swap request. *)
Inductive Direction : Type := Forward | Reverse.

Definition swap (d : Direction) : OpaqueSwap.t → Z → Z → InputProof → EVM Z :=
  match d with
  | Forward => OpaqueSwap.swapWethForWusdt
  | Reverse => OpaqueSwap.swapWusdtForWeth
  end.

(** The asset pulled from the caller, the asset pushed back, and the
    amount the engine asks the outgoing ledger to push. *)
Definition asset_in (d : Direction) (sw : OpaqueSwap.t) : Z :=
  match d with Forward => OpaqueSwap.wETH sw | Reverse => OpaqueSwap.wUSDT sw end.

Definition asset_out (d : Direction) (sw : OpaqueSwap.t) : Z :=
  match d with Forward => OpaqueSwap.wUSDT sw | Reverse => OpaqueSwap.wETH sw end.

Definition convert (d : Direction) (amountIn : Z) : Z :=
  match d with Forward => forward amountIn | Reverse => reverse amountIn end.

Definition swap_event (d : Direction) (user amountIn amountOut : Z) : Event :=
  match d with
  | Forward => SwapWethForWusdt user amountIn amountOut
  | Reverse => SwapWusdtForWeth user amountIn amountOut
  end.

(** The two encrypted amounts of a swap: [amountIn], under the handle that
    was submitted, and [amountOut], under the handle of the product or of
    the quotient. *)
Definition handle_out (d : Direction) (handle : Z) : Handle :=
  match d with
  | Forward => Product (Input handle) OpaqueSwap.WETH_TO_WUSDT_RATE
  | Reverse => Quotient (Input handle) OpaqueSwap.WETH_TO_WUSDT_RATE
  end.

Definition amount_in (handle value : Z) : euint64 :=
  {| handle_of := Input handle; cleartext := value |}.

Definition amount_out (d : Direction) (handle value : Z) : euint64 :=
  {| handle_of := handle_out d handle; cleartext := convert d value |}.

(** The chain once the engine has taken in the input, converted it and
    called [FHE.allowThis] on both amounts: the engine, and nobody else,
    has been granted the two handles. *)
Definition prepared (d : Direction) (sw : OpaqueSwap.t) (handle : Z) (c : Chain) : Chain :=
  let this := OpaqueSwap.this sw in
  allow (allow (allowTransient (allowTransient c (Input handle) this)
                  (handle_out d handle) this)
           (Input handle) this)
    (handle_out d handle) this.

(** The three sub-steps of a swap that can fail: the ingestion of the
    encrypted input, the transfer-in on the asset the caller gives, and the
    transfer-out on the asset the caller receives. *)
Definition ingest (sw : OpaqueSwap.t) (msg_sender handle : Z) (proof : InputProof)
  : outcome Z :=
  fromExternal (OpaqueSwap.this sw) msg_sender handle proof.

Definition transfer_in (d : Direction) (sw : OpaqueSwap.t) (msg_sender : Z)
    (amountIn : euint64) : EVM Z :=
  call_ledger (asset_in d sw)
    (λ c l, confidentialTransferFrom l (isAllowed c) (timestamp c) (asset_in d sw)
              (OpaqueSwap.this sw) msg_sender (OpaqueSwap.this sw) amountIn).

Definition transfer_out (d : Direction) (sw : OpaqueSwap.t) (msg_sender : Z)
    (amountOut : euint64) : EVM Z :=
  call_ledger (asset_out d sw)
    (λ c l, confidentialTransfer l (isAllowed c) (asset_out d sw)
              (OpaqueSwap.this sw) msg_sender amountOut).


(** A sub-step of a swap fails on chain state [c] with error [e].  The
    two transfers run on the chain as the engine has prepared it. *)
Inductive substep_fails (d : Direction) (sw : OpaqueSwap.t) (caller handle : Z)
    (proof : InputProof) (c : Chain) (e : Error) : Prop :=
  | ingest_fails :
      ingest sw caller handle proof = Revert e →
      substep_fails d sw caller handle proof c e
  | transfer_in_fails amountIn c1 :
      ingest sw caller handle proof = Ok amountIn →
      transfer_in d sw caller (amount_in handle amountIn) (prepared d sw handle c)
        = (Revert e, c1) →
      substep_fails d sw caller handle proof c e
  | transfer_out_fails amountIn transferredIn c1 c2 :
      ingest sw caller handle proof = Ok amountIn →
      transfer_in d sw caller (amount_in handle amountIn) (prepared d sw handle c)
        = (Ok transferredIn, c1) →
      transfer_out d sw caller (amount_out d handle amountIn) c1 = (Revert e, c2) →
      substep_fails d sw caller handle proof c e.



(** No account but the engine is allowed on any handle: the state of the
    access control list for the handles of swap inputs when the contracts
    have just been deployed, and, as the properties show, ever after. *)
Definition engine_only (sw : OpaqueSwap.t) (c : Chain) : Prop :=
  ∀ h account, isAllowed c h account = true → account = OpaqueSwap.this sw.

(** A swap call as data, and the chain after a list of them, each run as
    a transaction of its own. *)
Record SwapCall : Type := {
  call_direction : Direction;
  call_sender : Z;
  call_handle : Z;
  call_proof : InputProof
}.

Definition run_call (sw : OpaqueSwap.t) (call : SwapCall) : EVM Z :=
  transact (swap (call_direction call) sw (call_sender call) (call_handle call)
              (call_proof call)).

Definition after_calls (sw : OpaqueSwap.t) (c : Chain) (calls : list SwapCall) : Chain :=
  foldl (λ c call, snd (run_call sw call c)) c calls.

(** ** Test scenarios on chain *)

(** The chain of the repository's test fixture: the two ledgers, the
    engine at address 300, and alice (address 1) holding 5 wETH and
    6200 wUSDT (six decimals), the engine holding liquidity, with operator
    grants that run for an hour. *)
Module Fixture.

Definition UNIT : Z := 1000000.
Definition alice : Z := 1.
Definition engine : OpaqueSwap.t :=
  {| OpaqueSwap.this := 300; OpaqueSwap.wETH := 100; OpaqueSwap.wUSDT := 200 |}.

Definition granted (l : Ledger) : Ledger := setOperator l alice 300 (1000 + 3600).

Definition weth (p : ShortfallPolicy) : Ledger :=
  granted (mint (mint {| shortfall := p; balances := ∅; operators := ∅ |}
                   alice (5 * UNIT)) 300 (20 * UNIT)).

Definition wusdt (p : ShortfallPolicy) : Ledger :=
  granted (mint (mint {| shortfall := p; balances := ∅; operators := ∅ |}
                   alice (6200 * UNIT)) 300 (62000 * UNIT)).

(** The encrypted input alice's client produces for [amount]. *)
Definition handle : Z := 77.
Definition input (amount : Z) : InputProof :=
  {| bound_contract := 300; bound_account := alice; attested := [(handle, amount)] |}.

(** The chain as the test's [beforeEach] leaves it: nobody has been
    granted anything on the handle of alice's input. *)
Definition tested (p : ShortfallPolicy) : Chain :=
  {| tokens := <[200 := wusdt p]> (<[100 := weth p]> ∅);
     timestamp := 1000; logs := []; acl := []; transient := [] |}.

(** The same chain with both ledgers allowed on the handles of a swap of
    alice's input, in either direction: the access the transfers need,
    and which no line of the engine grants. *)
Definition access : list (Handle * Z) :=
  [(Input handle, 100); (handle_out Forward handle, 200);
   (Input handle, 200); (handle_out Reverse handle, 100)].

Definition chain (p : ShortfallPolicy) : Chain :=
  {| tokens := tokens (tested p); timestamp := 1000; logs := [];
     acl := access; transient := [] |}.

End Fixture.


(** ** The client: the DexApp component

    The component's state is the React state it declares with [useState]
    plus what its hooks hand it.  Its [async] functions run up to their
    next [await], are parked as a task, and continue when the awaited
    promise settles; between two such steps any other event of the page
    can be handled.  Every call that leaves the component (wallet, relayer
    SDK, RPC reads) is recorded in a log. *)
Module DexApp.

Definition ZERO_HANDLE : string :=
  "0x0000000000000000000000000000000000000000000000000000000000000000".
Definition DECIMALS : nat := 6.
Definition RATE : Z := 3100.

Inductive TokenKey : Type := weth | wusdt.

#[global] Instance TokenKey_eq_dec : EqDecision TokenKey.
Proof. solve_decision. Defined.

Record Addresses : Type := {
  addr_swap : string;
  addr_weth : string;
  addr_wusdt : string
}.

Record EncryptedBalances : Type := {
  enc_weth : option string;
  enc_wusdt : option string
}.

Record DecryptedBalances : Type := {
  dec_weth : option Z;
  dec_wusdt : option Z
}.

Record OperatorStatus : Type := {
  op_weth : bool;
  op_wusdt : bool
}.

(** [balances[token]] and [{ ...prev, [token]: value }]. *)
Definition encrypted_of (b : EncryptedBalances) (token : TokenKey) : option string :=
  match token with weth => enc_weth b | wusdt => enc_wusdt b end.

Definition decrypted_of (b : DecryptedBalances) (token : TokenKey) : option Z :=
  match token with weth => dec_weth b | wusdt => dec_wusdt b end.

Definition with_decrypted (prev : DecryptedBalances) (token : TokenKey) (v : Z)
  : DecryptedBalances :=
  match token with
  | weth => {| dec_weth := Some v; dec_wusdt := dec_wusdt prev |}
  | wusdt => {| dec_weth := dec_weth prev; dec_wusdt := Some v |}
  end.

(** What the hooks provide: [useAccount], the memoised [typedAddresses]
    ([None] unless all three typed addresses are valid) and
    [useZamaInstance] (only the presence of the instance matters). *)
Record Hooks : Type := {
  address : option string;
  isConnected : bool;
  typedAddresses : option Addresses;
  instance : bool
}.

(** The [useState] cells the modelled functions touch. *)
Record View : Type := {
  encryptedBalances : EncryptedBalances;
  decryptedBalances : DecryptedBalances;
  operatorStatus : OperatorStatus;
  isRefreshing : bool;
  isDecrypting : option TokenKey;
  statusMessage : option string
}.

Record Keypair : Type := {
  publicKey : string;
  privateKey : string
}.

(** The argument list of [instance.createEIP712], which the wallet is
    asked to sign. *)
Record EIP712 : Type := {
  eip_publicKey : string;
  eip_contractAddresses : list string;
  eip_startTimeStamp : string;
  eip_durationDays : string
}.

(** Calls that leave the component. *)
Inductive Call : Type :=
  | ReadContract (contract functionName : string) (args : list string)
  | GenerateKeypair
  | CreateEIP712 (request : EIP712)
  | SignTypedData (request : EIP712)
  | UserDecrypt (handleContractPairs : list (string * string))
      (privateKey publicKey signature : string) (contractAddresses : list string)
      (userAddress startTimeStamp durationDays : string).

(** What is live across the [await]s of [decryptBalance]. *)
Record DecryptFrame : Type := {
  fr_token : TokenKey;
  fr_handle : string;
  fr_address : string;
  fr_typed : Addresses
}.

Record Handshake : Type := {
  hs_keypair : Keypair;
  hs_contractAddress : string;
  hs_startTimeStamp : string;
  hs_durationDays : string
}.

(** A parked [async] function. *)
Inductive Task : Type :=
  | DecryptAwaitSigner (f : DecryptFrame)                  (* await signerPromise *)
  | DecryptAwaitSignature (f : DecryptFrame) (h : Handshake)  (* await signTypedData *)
  | DecryptAwaitUserDecrypt (f : DecryptFrame) (h : Handshake) (* await userDecrypt *)
  | RefreshAwaitReads                                     (* await Promise.all *)
  | Finished.

(** A thrown value: [error instanceof Error] with its message, or
    anything else. *)
Inductive Thrown : Type :=
  | ErrorObject (message : string)
  | OtherValue.

(** The entry [result[handle]] of a [userDecrypt] response: a bigint, a
    value [BigInt(...)] converts, or one it throws on (a missing entry
    among them). *)
Inductive ClearValue : Type :=
  | IsBigint (n : Z)
  | Convertible (n : Z)
  | Inconvertible (e : Thrown).

(** How an awaited promise settles. *)
Inductive Settled : Type :=
  | SignerIs (signer : option string)
  | Signature (signature : string)
  | DecryptResult (clearValue : ClearValue)
  | ReadResults (wethBalance wusdtBalance : string) (wethOperator wusdtOperator : bool)
  | Rejected (e : Thrown).

Record State : Type := {
  hooks : Hooks;
  view : View;
  clock : Z;            (* Date.now(), in milliseconds *)
  keys : nat;           (* keypairs generated so far *)
  tasks : list Task;
  calls : list Call
}.

(** *** State setters *)

Definition with_view (f : View → View) (s : State) : State :=
  {| hooks := hooks s; view := f (view s); clock := clock s; keys := keys s;
     tasks := tasks s; calls := calls s |}.

Definition setEncryptedBalances (b : EncryptedBalances) : State → State :=
  with_view (λ v,
    {| encryptedBalances := b; decryptedBalances := decryptedBalances v;
       operatorStatus := operatorStatus v; isRefreshing := isRefreshing v;
       isDecrypting := isDecrypting v; statusMessage := statusMessage v |}).

Definition setDecryptedBalances (f : DecryptedBalances → DecryptedBalances)
  : State → State :=
  with_view (λ v,
    {| encryptedBalances := encryptedBalances v;
       decryptedBalances := f (decryptedBalances v);
       operatorStatus := operatorStatus v; isRefreshing := isRefreshing v;
       isDecrypting := isDecrypting v; statusMessage := statusMessage v |}).

Definition setOperatorStatus (o : OperatorStatus) : State → State :=
  with_view (λ v,
    {| encryptedBalances := encryptedBalances v;
       decryptedBalances := decryptedBalances v;
       operatorStatus := o; isRefreshing := isRefreshing v;
       isDecrypting := isDecrypting v; statusMessage := statusMessage v |}).

Definition setIsRefreshing (b : bool) : State → State :=
  with_view (λ v,
    {| encryptedBalances := encryptedBalances v;
       decryptedBalances := decryptedBalances v;
       operatorStatus := operatorStatus v; isRefreshing := b;
       isDecrypting := isDecrypting v; statusMessage := statusMessage v |}).

Definition setIsDecrypting (t : option TokenKey) : State → State :=
  with_view (λ v,
    {| encryptedBalances := encryptedBalances v;
       decryptedBalances := decryptedBalances v;
       operatorStatus := operatorStatus v; isRefreshing := isRefreshing v;
       isDecrypting := t; statusMessage := statusMessage v |}).

Definition setStatusMessage (m : option string) : State → State :=
  with_view (λ v,
    {| encryptedBalances := encryptedBalances v;
       decryptedBalances := decryptedBalances v;
       operatorStatus := operatorStatus v; isRefreshing := isRefreshing v;
       isDecrypting := isDecrypting v; statusMessage := m |}).

Definition record_call (c : Call) (s : State) : State :=
  {| hooks := hooks s; view := view s; clock := clock s; keys := keys s;
     tasks := tasks s; calls := calls s ++ [c] |}.

Definition park (t : Task) (s : State) : State :=
  {| hooks := hooks s; view := view s; clock := clock s; keys := keys s;
     tasks := tasks s ++ [t]; calls := calls s |}.

Definition set_task (i : nat) (t : Task) (s : State) : State :=
  {| hooks := hooks s; view := view s; clock := clock s; keys := keys s;
     tasks := <[i := t]> (tasks s); calls := calls s |}.

Definition fresh_keypair (s : State) : Keypair * State :=
  ({| publicKey := "pk" +:+ pretty (keys s); privateKey := "sk" +:+ pretty (keys s) |},
   {| hooks := hooks s; view := view s; clock := clock s; keys := S (keys s);
      tasks := tasks s; calls := calls s ++ [GenerateKeypair] |}).

Definition advance (ms : Z) (s : State) : State :=
  {| hooks := hooks s; view := view s; clock := clock s + Z.max 0 ms; keys := keys s;
     tasks := tasks s; calls := calls s |}.

(** *** JavaScript helpers *)

(** Truthiness of a string-or-null value: [null], [undefined] and the
    empty string are falsy. *)
Definition truthy (v : option string) : bool :=
  match v with
  | Some x => negb (String.eqb x "")
  | None => false
  end.

(** [v === literal] for a string-or-null value. *)
Definition strict_eq (v : option string) (literal : string) : bool :=
  match v with
  | Some x => String.eqb x literal
  | None => false
  end.

(** [error instanceof Error ? error.message : fallback] *)
Definition message_of (e : Thrown) (fallback : string) : string :=
  match e with
  | ErrorObject message => message
  | OtherValue => fallback
  end.

(** [signature.replace('0x', '')]: drops the first occurrence. *)
Fixpoint replace_0x (x : string) : string :=
  match x with
  | String "0"%char (String "x"%char rest) => rest
  | String ch rest => String ch (replace_0x rest)
  | EmptyString => EmptyString
  end.

(** viem's [formatUnits(value, decimals)]. *)
Fixpoint drop_trailing_zeros (x : string) : string :=
  match x with
  | EmptyString => EmptyString
  | String ch rest =>
      match drop_trailing_zeros rest with
      | EmptyString => if Ascii.eqb ch "0"%char then EmptyString else String ch EmptyString
      | kept => String ch kept
      end
  end.

Fixpoint zeros (n : nat) : string :=
  match n with O => EmptyString | S k => String "0"%char (zeros k) end.

Definition padStart (width : nat) (x : string) : string :=
  zeros (width - String.length x) +:+ x.

Definition formatUnits (value : Z) (decimals : nat) : string :=
  let negative := value <? 0 in
  let display := padStart decimals (pretty (Z.abs value)) in
  let split_at := (String.length display - decimals)%nat in
  let integer := String.substring 0 split_at display in
  let fraction := drop_trailing_zeros (String.substring split_at decimals display) in
  (if negative then "-" else "")
  +:+ (if String.eqb integer "" then "0" else integer)
  +:+ (if String.eqb fraction "" then "" else "." +:+ fraction).

(** *** The component's functions *)

Definition formatClear (value : option Z) : string :=
  match value with
  | None => "***"
  | Some v => formatUnits v DECIMALS
  end.

Definition resetDecrypted : State → State :=
  setDecryptedBalances (λ _, {| dec_weth := None; dec_wusdt := None |}).

(** [refreshOnChainData], up to its [await Promise.all([...])]. *)
Definition refreshOnChainData (s : State) : State :=
  match address (hooks s), typedAddresses (hooks s) with
  | Some a, Some typed =>
      if negb (truthy (Some a)) then s
      else
        let s := setIsRefreshing true s in
        let s := setStatusMessage None s in
        let s := record_call
                   (ReadContract (addr_weth typed) "confidentialBalanceOf" [a]) s in
        let s := record_call
                   (ReadContract (addr_wusdt typed) "confidentialBalanceOf" [a]) s in
        let s := record_call
                   (ReadContract (addr_weth typed) "isOperator" [a; addr_swap typed]) s in
        let s := record_call
                   (ReadContract (addr_wusdt typed) "isOperator" [a; addr_swap typed]) s in
        park RefreshAwaitReads s
  | _, _ => s
  end.

(** [refreshOnChainData], from the settlement of the reads to its end. *)
Definition refresh_resume (i : nat) (r : Settled) (s : State) : State :=
  match r with
  | ReadResults wethBalance wusdtBalance wethOperator wusdtOperator =>
      let s := setEncryptedBalances
                 {| enc_weth := Some wethBalance; enc_wusdt := Some wusdtBalance |} s in
      let s := setOperatorStatus {| op_weth := wethOperator; op_wusdt := wusdtOperator |} s in
      let s := resetDecrypted s in
      set_task i Finished (setIsRefreshing false s)
  | Rejected e =>
      let s := setStatusMessage (Some (message_of e "Failed to refresh on-chain data")) s in
      set_task i Finished (setIsRefreshing false s)
  | _ => s
  end.

(** The authorization request of the decrypt handshake (the arguments of
    [createEIP712]), built when [Date.now()] reads [now_ms]. *)
Definition authorization (keypair : Keypair) (contractAddress : string) (now_ms : Z)
  : EIP712 :=
  let startTimeStamp := pretty (now_ms / 1000) in
  let durationDays := "10" in
  let contractAddresses := [contractAddress] in
  {| eip_publicKey := publicKey keypair;
     eip_contractAddresses := contractAddresses;
     eip_startTimeStamp := startTimeStamp;
     eip_durationDays := durationDays |}.

(** [decryptBalance(token)], up to its [await signerPromise]. *)
Definition decryptBalance (token : TokenKey) (s : State) : State :=
  if negb (truthy (address (hooks s)))
     || negb (bool_decide (is_Some (typedAddresses (hooks s))))
     || negb (instance (hooks s))
  then setStatusMessage
         (Some "Connect wallet and initialize encryption to decrypt balances.") s
  else
    let handle := encrypted_of (encryptedBalances (view s)) token in
    if negb (truthy handle) || strict_eq handle ZERO_HANDLE
    then setStatusMessage (Some "Encrypted balance not available yet.") s
    else
      match address (hooks s), typedAddresses (hooks s), handle with
      | Some a, Some typed, Some h =>
          park (DecryptAwaitSigner
                  {| fr_token := token; fr_handle := h; fr_address := a; fr_typed := typed |}) s
      | _, _, _ => s
      end.

(** The [finally] and [catch] blocks of [decryptBalance]. *)
Definition decrypt_finally (i : nat) (s : State) : State :=
  set_task i Finished (setIsDecrypting None s).

Definition decrypt_catch (i : nat) (e : Thrown) (s : State) : State :=
  decrypt_finally i (setStatusMessage (Some (message_of e "Failed to decrypt balance")) s).

(** [decryptBalance], from the settlement of [signerPromise] to
    [await signer.signTypedData(...)]. *)
Definition decrypt_resume_signer (i : nat) (f : DecryptFrame) (signer : option string)
    (s : State) : State :=
  match signer with
  | None => set_task i Finished (setStatusMessage (Some "Signer not available.") s)
  | Some _ =>
      let s := setIsDecrypting (Some (fr_token f)) s in
      let s := setStatusMessage None s in
      let '(keypair, s) := fresh_keypair s in
      let contractAddress :=
        match fr_token f with
        | weth => addr_weth (fr_typed f)
        | wusdt => addr_wusdt (fr_typed f)
        end in
      let eip712 := authorization keypair contractAddress (clock s) in
      let s := record_call (CreateEIP712 eip712) s in
      let s := record_call (SignTypedData eip712) s in
      set_task i
        (DecryptAwaitSignature f
           {| hs_keypair := keypair; hs_contractAddress := contractAddress;
              hs_startTimeStamp := eip_startTimeStamp eip712;
              hs_durationDays := eip_durationDays eip712 |}) s
  end.

(** ... from the signature to [await instance.userDecrypt(...)]. *)
Definition decrypt_resume_signature (i : nat) (f : DecryptFrame) (h : Handshake)
    (r : Settled) (s : State) : State :=
  match r with
  | Signature signature =>
      let s := record_call
                 (UserDecrypt [(fr_handle f, hs_contractAddress h)]
                    (privateKey (hs_keypair h)) (publicKey (hs_keypair h))
                    (replace_0x signature) [hs_contractAddress h] (fr_address f)
                    (hs_startTimeStamp h) (hs_durationDays h)) s in
      set_task i (DecryptAwaitUserDecrypt f h) s
  | Rejected e => decrypt_catch i e s
  | _ => s
  end.

(** ... and from the decryption result to the end. *)
Definition decrypt_resume_result (i : nat) (f : DecryptFrame) (r : Settled) (s : State)
  : State :=
  match r with
  | DecryptResult (IsBigint normalized) | DecryptResult (Convertible normalized) =>
      decrypt_finally i
        (setDecryptedBalances (λ prev, with_decrypted prev (fr_token f) normalized) s)
  | DecryptResult (Inconvertible e) => decrypt_catch i e s
  | Rejected e => decrypt_catch i e s
  | _ => s
  end.

(** *** What is rendered *)

(** The [disabled] attribute of a balance card's Decrypt button and of the
    Refresh button. *)
Definition decrypt_disabled (s : State) (token : TokenKey) : bool :=
  bool_decide (isDecrypting (view s) = Some token)
  || negb (instance (hooks s))
  || negb (isConnected (hooks s)).

Definition refresh_disabled (s : State) : bool :=
  negb (isConnected (hooks s))
  || negb (bool_decide (is_Some (typedAddresses (hooks s))))
  || isRefreshing (view s).

Definition decrypt_label (s : State) (token : TokenKey) : string :=
  if bool_decide (isDecrypting (view s) = Some token) then "Decrypting..." else "Decrypt".

Definition rendered_clear (s : State) (token : TokenKey) : string :=
  formatClear (decrypted_of (decryptedBalances (view s)) token).

(** The status line of the footer,
    [statusMessage ? <div className="status-error">...</div> : null]:
    nothing is rendered for [null] and for the empty string. *)
Definition status_banner (s : State) : option string :=
  if truthy (statusMessage (view s)) then statusMessage (view s) else None.

(** *** Events of the page *)

Inductive Event : Type :=
  | ClickDecrypt (token : TokenKey)
  | ClickRefresh
  | CallRefresh                       (* the effect and the post-transaction refreshes *)
  | Settle (i : nat) (r : Settled)    (* the promise task [i] awaits settles *)
  | Elapse (ms : Z).

Definition step (s : State) (e : Event) : State :=
  match e with
  | ClickDecrypt token => if decrypt_disabled s token then s else decryptBalance token s
  | ClickRefresh => if refresh_disabled s then s else refreshOnChainData s
  | CallRefresh => refreshOnChainData s
  | Settle i r =>
      match tasks s !! i with
      | Some (DecryptAwaitSigner f) =>
          match r with
          | SignerIs signer => decrypt_resume_signer i f signer s
          | Rejected _ => set_task i Finished s
          | _ => s
          end
      | Some (DecryptAwaitSignature f h) => decrypt_resume_signature i f h r s
      | Some (DecryptAwaitUserDecrypt f _) => decrypt_resume_result i f r s
      | Some RefreshAwaitReads => refresh_resume i r s
      | Some Finished | None => s
      end
  | Elapse ms => advance ms s
  end.

Definition run (s : State) (trace : list Event) : State := foldl step s trace.

(** Decrypt requests outstanding at the decryption service for one
    (account, asset) pair. *)
Definition awaits_decrypt (account : string) (token : TokenKey) (t : Task) : bool :=
  match t with
  | DecryptAwaitUserDecrypt f _ =>
      String.eqb (fr_address f) account && bool_decide (fr_token f = token)
  | _ => false
  end.

Definition in_flight (s : State) (account : string) (token : TokenKey) : nat :=
  length (filter (λ t, awaits_decrypt account token t = true) (tasks s)).

(** The session is ready for a decrypt: the first guard of
    [decryptBalance] passes. *)
Definition session_ready (s : State) : bool :=
  truthy (address (hooks s))
  && bool_decide (is_Some (typedAddresses (hooks s)))
  && instance (hooks s).

(** The [userDecrypt] requests among the recorded calls. *)
Definition is_userDecrypt (c : Call) : bool :=
  match c with UserDecrypt _ _ _ _ _ _ _ _ => true | _ => false end.

(** *** Units of time *)

Inductive TimeUnit : Type := Millisecond | Second | Day.

Definition ms_per (u : TimeUnit) : Z :=
  match u with
  | Millisecond => 1
  | Second => 1000
  | Day => 86400000
  end.

(** The numeral that expresses the instant [now_ms] in whole units [u]. *)
Definition instant_in (u : TimeUnit) (now_ms : Z) : Z := now_ms / ms_per u.

(** A number of days, expressed in units [u] (as [setOperatorForToken]
    does with [days * 86400] to add days to a timestamp in seconds). *)
Definition days_in (u : TimeUnit) (days : Z) : Z := days * ms_per Day / ms_per u.

(** The validity window as the specification words it: the request
    carries its start time in some unit, and its duration, which the
    request gives in days, is 10 of that same unit. *)
Definition same_unit_as_stated (now_ms : Z) (request : EIP712) : Prop :=
  ∃ u, eip_startTimeStamp request = pretty (instant_in u now_ms)
       ∧ eip_durationDays request = pretty 10
       ∧ days_in u 10 = 10.

(** *** Rendering of a handle *)

(** [x.slice(0, n)] and [x.slice(-n)] for a non-negative literal [n]: the
    first and the last [n] characters, the whole string when it is
    shorter. *)
Definition slice_first (n : nat) (x : string) : string := String.substring 0 n x.

Definition slice_last (n : nat) (x : string) : string :=
  String.substring (String.length x - n) n x.

Definition renderEncrypted (handle : option string) : string :=
  if negb (truthy handle) || strict_eq handle ZERO_HANDLE then "Uninitialized"
  else
    match handle with
    | Some h => slice_first 10 h +:+ "..." +:+ slice_last 8 h
    | None => "Uninitialized"
    end.

(** The characters of a string, and the strings made of characters of a
    given class. *)
Fixpoint all_chars (P : ascii → bool) (x : string) : bool :=
  match x with
  | EmptyString => true
  | String ch rest => P ch && all_chars P rest
  end.

Definition is_digit (ch : ascii) : bool :=
  match ch with
  | "0" | "1" | "2" | "3" | "4" | "5" | "6" | "7" | "8" | "9" => true
  | _ => false
  end%char.

Definition is_decimal_char (ch : ascii) : bool :=
  is_digit ch || Ascii.eqb ch "-" || Ascii.eqb ch ".".

(** *** The swap form *)

Inductive SwapDirection : Type := wethToWusdt | wusdtToWeth.

(** [buildSwapPreview].  viem's [parseUnits] is taken as given: it returns
    the parsed amount or throws ([None]).  Division of bigints truncates
    towards zero. *)
Definition buildSwapPreview (parseUnits : string → nat → option Z)
    (swapAmount : string) (swapDirection : SwapDirection) : option string :=
  if negb (truthy (Some swapAmount)) then None
  else
    match parseUnits swapAmount DECIMALS with
    | Some value =>
        match swapDirection with
        | wethToWusdt => Some (formatUnits (value * RATE) DECIMALS)
        | wusdtToWeth => Some (formatUnits (Z.quot value RATE) DECIMALS)
        end
    | None => None
    end.

(** *** Bookkeeping over the parked tasks *)

Definition is_refresh (t : Task) : bool :=
  match t with RefreshAwaitReads => true | _ => false end.

(** The refreshes whose reads are outstanding. *)
Definition count_refreshes (l : list Task) : nat :=
  length (filter (λ t, is_refresh t = true) l).

Definition pending_refreshes (s : State) : nat := count_refreshes (tasks s).

(** The flag [isRefreshing] tells whether a refresh is outstanding, and
    there is at most one. *)
Definition refresh_consistent (s : State) : Prop :=
  pending_refreshes s = if isRefreshing (view s) then 1%nat else 0%nat.

(** A trace in which [refreshOnChainData] is never entered from the effect
    or after a transaction while a refresh is outstanding. *)
Fixpoint refresh_not_reentered (s : State) (trace : list Event) : Prop :=
  match trace with
  | [] => True
  | e :: rest =>
      (e = CallRefresh → isRefreshing (view s) = false)
      ∧ refresh_not_reentered (step s e) rest
  end.

(** The ways a decrypt handshake fails at task [t] when its promise
    settles as [r], with the message the user is shown. *)
Definition handshake_failure (t : Task) (r : Settled) : option string :=
  match t, r with
  | DecryptAwaitSigner _, SignerIs None => Some "Signer not available."
  | DecryptAwaitSignature _ _, Rejected e
  | DecryptAwaitUserDecrypt _ _, Rejected e
  | DecryptAwaitUserDecrypt _ _, DecryptResult (Inconvertible e) =>
      Some (message_of e "Failed to decrypt balance")
  | _, _ => None
  end.

(** The last sentence of the refresh property as it is worded: once a
    refresh has masked the balances in state [s], the balance of [token]
    is revealed again along the events [later] only if the decrypt
    handshake is run again, that is, only if [decryptBalance(token)] is
    started among them. *)
Definition handshake_rerun_as_stated (s : State) (later : list Event) (token : TokenKey)
  : Prop :=
  decrypted_of (decryptedBalances (view (run s later))) token ≠ None →
  ClickDecrypt token ∈ later.

(** The ledger address a token key stands for. *)
Definition contract_of (typed : Addresses) (token : TokenKey) : string :=
  match token with weth => addr_weth typed | wusdt => addr_wusdt typed end.

End DexApp.

(** A connected session with both balances initialised. *)
Module Session.

Import DexApp.

Definition account : string := "0xA11CE".

Definition contracts : Addresses :=
  {| addr_swap := "0x5WAP"; addr_weth := "0xE7H"; addr_wusdt := "0x05D7" |}.

Definition connected : Hooks :=
  {| address := Some account; isConnected := true;
     typedAddresses := Some contracts; instance := true |}.

Definition fresh_view : View :=
  {| encryptedBalances := {| enc_weth := None; enc_wusdt := None |};
     decryptedBalances := {| dec_weth := None; dec_wusdt := None |};
     operatorStatus := {| op_weth := false; op_wusdt := false |};
     isRefreshing := false; isDecrypting := None; statusMessage := None |}.

(** The component as mounted, at a given reading of the clock. *)
Definition mounted (now_ms : Z) : State :=
  {| hooks := connected; view := fresh_view; clock := now_ms; keys := 0;
     tasks := []; calls := [] |}.

(** After a first refresh has delivered two balance handles. *)
Definition loaded : State :=
  run (mounted 1700000000123)
    [CallRefresh; Settle 0 (ReadResults "0xaa11" "0xbb22" true true)].

(** A session whose wETH balance was read as the zero handle. *)
Definition uninitialised : State :=
  run (mounted 1700000000123)
    [CallRefresh; Settle 0 (ReadResults ZERO_HANDLE "0xbb22" false false)].

(** A session in which the wETH balance has been revealed. *)
Definition revealed : State :=
  run loaded
    [ClickDecrypt weth; Settle 1 (SignerIs (Some "wallet"));
     Settle 1 (Signature "0x5160"); Settle 1 (DecryptResult (IsBigint 5000000))].

(** The events that put two wETH decrypt requests of the same account in
    flight at once: while the first is outstanding, a decrypt of wUSDT is
    started, which overwrites [isDecrypting] and re-enables the wETH
    button. *)
Definition interleaving : list Event :=
  [ClickDecrypt weth;
   Settle 1 (SignerIs (Some "wallet"));
   Settle 1 (Signature "0x5160");
   ClickDecrypt weth;
   ClickDecrypt wusdt;
   Settle 2 (SignerIs (Some "wallet"));
   ClickDecrypt weth;
   Settle 3 (SignerIs (Some "wallet"));
   Settle 3 (Signature "0x5163")].

(** A refresh that completes while a decrypt is in flight: with the wETH
    balance revealed, a second decrypt of it is started and reaches the
    decryption service; the balances are refreshed and come back under new
    handles; then the service answers. *)
Definition stale : list Event :=
  [ClickDecrypt weth;
   Settle 2 (SignerIs (Some "wallet"));
   Settle 2 (Signature "0x5161");
   ClickRefresh;
   Settle 3 (ReadResults "0xaa12" "0xbb23" true true);
   Settle 2 (DecryptResult (IsBigint 5000000))].

End Session.

(** ** The client's transactions: [executeSwap] and [mintTokens]

    The two functions that send transactions, on top of the component
    state above.  They read the form fields as they were when the button
    was clicked, await the signer, validate the typed amount, and then go
    through the wallet: encryption of the input (swap only), submission,
    confirmation, and a final [refreshOnChainData].  viem's [parseUnits] is
    taken as given: it returns the parsed amount or throws ([None]). *)
Module DexActions.

Import DexApp.

Record Form : Type := {
  swapDirection : SwapDirection;
  swapAmount : string;
  mint_weth : string;       (* mintAmounts.weth *)
  mint_wusdt : string       (* mintAmounts.wusdt *)
}.

(** What the wallet and the relayer SDK are asked to do. *)
Inductive Request : Type :=
  | EncryptInput (contract user : string) (amount : Z)
  | SendSwapWethForWusdt (contract handle inputProof : string)
  | SendSwapWusdtForWeth (contract handle inputProof : string)
  | SendMint (contract to : string) (amount : Z).

Inductive ActionTask : Type :=
  | SwapAwaitSigner (a : string) (typed : Addresses) (amountText : string)
      (direction : SwapDirection)                       (* await signerPromise *)
  | SwapAwaitEncrypt (typed : Addresses) (direction : SwapDirection)
                                                        (* await ....encrypt() *)
  | SwapAwaitSubmit                                     (* await swap.swap...(...) *)
  | SwapAwaitConfirm                                    (* await tx.wait() *)
  | MintAwaitSigner (a : string) (typed : Addresses) (token : TokenKey)
      (rawAmount : string)                              (* await signerPromise *)
  | MintAwaitSubmit                                     (* await tokenContract.mint(...) *)
  | MintAwaitConfirm                                    (* await tx.wait() *)
  | ActionFinished.

Inductive ActionSettled : Type :=
  | SignerResolved (signer : option string)
  | Encrypted (handle inputProof : string)
  | Submitted
  | Confirmed
  | Threw (e : Thrown).

Record App : Type := {
  base : State;
  form : Form;
  actions : list ActionTask;
  requests : list Request
}.

Definition with_base (f : State → State) (s : App) : App :=
  {| base := f (base s); form := form s; actions := actions s; requests := requests s |}.

Definition with_form (f : Form → Form) (s : App) : App :=
  {| base := base s; form := f (form s); actions := actions s; requests := requests s |}.

Definition park_action (t : ActionTask) (s : App) : App :=
  {| base := base s; form := form s; actions := actions s ++ [t];
     requests := requests s |}.

Definition set_action (i : nat) (t : ActionTask) (s : App) : App :=
  {| base := base s; form := form s; actions := <[i := t]> (actions s);
     requests := requests s |}.

Definition request (r : Request) (s : App) : App :=
  {| base := base s; form := form s; actions := actions s;
     requests := requests s ++ [r] |}.

Definition say (message : string) : App → App :=
  with_base (setStatusMessage (Some message)).

(** [swapAmount || '0'] *)
Definition or_zero (text : string) : string :=
  if truthy (Some text) then text else "0".

(** [executeSwap], up to its [await signerPromise]. *)
Definition executeSwap (s : App) : App :=
  if negb (truthy (address (hooks (base s))))
     || negb (bool_decide (is_Some (typedAddresses (hooks (base s)))))
     || negb (instance (hooks (base s)))
  then say "Connect wallet and initialize encryption before swapping." s
  else
    match address (hooks (base s)), typedAddresses (hooks (base s)) with
    | Some a, Some typed =>
        park_action
          (SwapAwaitSigner a typed (swapAmount (form s)) (swapDirection (form s))) s
    | _, _ => s
    end.

(** [mintTokens(token)], up to its [await signerPromise]. *)
Definition mintTokens (token : TokenKey) (s : App) : App :=
  if negb (truthy (address (hooks (base s))))
     || negb (bool_decide (is_Some (typedAddresses (hooks (base s)))))
  then say "Connect wallet and set contract addresses first." s
  else
    match address (hooks (base s)), typedAddresses (hooks (base s)) with
    | Some a, Some typed =>
        park_action
          (MintAwaitSigner a typed token
             (match token with
              | weth => mint_weth (form s)
              | wusdt => mint_wusdt (form s)
              end)) s
    | _, _ => s
    end.

(** The [catch] blocks. *)
Definition swap_catch (i : nat) (e : Thrown) (s : App) : App :=
  set_action i ActionFinished (say (message_of e "Swap failed") s).

Definition mint_catch (i : nat) (e : Thrown) (s : App) : App :=
  set_action i ActionFinished (say (message_of e "Mint failed") s).

(** The continuation of a parked action when its promise settles. *)
Definition resume (parseUnits : string → nat → option Z) (i : nat) (t : ActionTask)
    (r : ActionSettled) (s : App) : App :=
  match t, r with
  | SwapAwaitSigner a typed amountText direction, SignerResolved None =>
      set_action i ActionFinished (say "Signer not available." s)
  | SwapAwaitSigner a typed amountText direction, SignerResolved (Some _) =>
      match parseUnits (or_zero amountText) DECIMALS with
      | None => set_action i ActionFinished (say "Invalid swap amount." s)
      | Some amount =>
          if amount <=? 0
          then set_action i ActionFinished (say "Enter a positive swap amount." s)
          else
            let s := say "Encrypting swap input..." s in
            let s := request (EncryptInput (addr_swap typed) a amount) s in
            set_action i (SwapAwaitEncrypt typed direction) s
      end
  | SwapAwaitSigner _ _ _ _, Threw _ => set_action i ActionFinished s
  | SwapAwaitEncrypt typed direction, Encrypted handle inputProof =>
      let s := request
                 (match direction with
                  | wethToWusdt => SendSwapWethForWusdt (addr_swap typed) handle inputProof
                  | wusdtToWeth => SendSwapWusdtForWeth (addr_swap typed) handle inputProof
                  end) s in
      set_action i SwapAwaitSubmit s
  | SwapAwaitEncrypt _ _, Threw e => swap_catch i e s
  | SwapAwaitSubmit, Submitted =>
      set_action i SwapAwaitConfirm (say "Swap submitted. Waiting for confirmation..." s)
  | SwapAwaitSubmit, Threw e => swap_catch i e s
  | SwapAwaitConfirm, Confirmed =>
      let s := say "Swap confirmed. Refreshing balances..." s in
      set_action i ActionFinished (with_base refreshOnChainData s)
  | SwapAwaitConfirm, Threw e => swap_catch i e s
  | MintAwaitSigner a typed token rawAmount, SignerResolved None =>
      set_action i ActionFinished (say "Signer not available." s)
  | MintAwaitSigner a typed token rawAmount, SignerResolved (Some _) =>
      match parseUnits (or_zero rawAmount) DECIMALS with
      | None => set_action i ActionFinished (say "Invalid mint amount." s)
      | Some amount =>
          if amount <=? 0
          then set_action i ActionFinished (say "Enter a positive mint amount." s)
          else
            let s := request (SendMint (contract_of typed token) a amount) s in
            set_action i MintAwaitSubmit s
      end
  | MintAwaitSigner _ _ _ _, Threw _ => set_action i ActionFinished s
  | MintAwaitSubmit, Submitted => set_action i MintAwaitConfirm (say "Mint submitted." s)
  | MintAwaitSubmit, Threw e => mint_catch i e s
  | MintAwaitConfirm, Confirmed =>
      let s := say "Mint confirmed." s in
      set_action i ActionFinished (with_base refreshOnChainData s)
  | MintAwaitConfirm, Threw e => mint_catch i e s
  | _, _ => s
  end.

(** The [disabled] attribute of the Swap and Mint buttons. *)
Definition swap_disabled (s : App) : bool :=
  negb (isConnected (hooks (base s)))
  || negb (bool_decide (is_Some (typedAddresses (hooks (base s)))))
  || negb (truthy (Some (swapAmount (form s)))).

Definition mint_disabled (s : App) : bool :=
  negb (isConnected (hooks (base s)))
  || negb (bool_decide (is_Some (typedAddresses (hooks (base s))))).

Inductive ActionEvent : Type :=
  | ClickSwap
  | ClickMint (token : TokenKey)
  | TypeSwapAmount (text : string)
  | ToggleDirection (direction : SwapDirection)
  | TypeMintAmount (token : TokenKey) (text : string)
  | SettleAction (i : nat) (r : ActionSettled)
  | Page (e : Event).                 (* an event of the component above *)

Definition act (parseUnits : string → nat → option Z) (s : App) (e : ActionEvent) : App :=
  match e with
  | ClickSwap => if swap_disabled s then s else executeSwap s
  | ClickMint token => if mint_disabled s then s else mintTokens token s
  | TypeSwapAmount text =>
      with_form (λ f, {| swapDirection := swapDirection f; swapAmount := text;
                         mint_weth := mint_weth f; mint_wusdt := mint_wusdt f |}) s
  | ToggleDirection direction =>
      with_form (λ f, {| swapDirection := direction; swapAmount := swapAmount f;
                         mint_weth := mint_weth f; mint_wusdt := mint_wusdt f |}) s
  | TypeMintAmount token text =>
      with_form (λ f,
        match token with
        | weth => {| swapDirection := swapDirection f; swapAmount := swapAmount f;
                     mint_weth := text; mint_wusdt := mint_wusdt f |}
        | wusdt => {| swapDirection := swapDirection f; swapAmount := swapAmount f;
                      mint_weth := mint_weth f; mint_wusdt := text |}
        end) s
  | SettleAction i r =>
      match actions s !! i with
      | Some t => resume parseUnits i t r s
      | None => s
      end
  | Page e => with_base (λ b, step b e) s
  end.

Definition play (parseUnits : string → nat → option Z) (s : App)
    (trace : list ActionEvent) : App :=
  foldl (act parseUnits) s trace.

(** A request asks for a positive amount where it names one. *)
Definition positive_amount (r : Request) : Prop :=
  match r with
  | EncryptInput _ _ amount | SendMint _ _ amount => 0 < amount
  | _ => True
  end.

(** The form as first rendered, over a component state. *)
Definition opened (b : State) : App :=
  {| base := b;
     form := {| swapDirection := wethToWusdt; swapAmount := "";
                mint_weth := ""; mint_wusdt := "" |};
     actions := []; requests := [] |}.

(** The ways an action fails at task [t] when its promise settles as
    [r], with the message the user is shown. *)
Definition action_failure (parseUnits : string → nat → option Z) (t : ActionTask)
    (r : ActionSettled) : option string :=
  match t, r with
  | SwapAwaitSigner _ _ _ _, SignerResolved None
  | MintAwaitSigner _ _ _ _, SignerResolved None => Some "Signer not available."
  | SwapAwaitSigner _ _ amountText _, SignerResolved (Some _) =>
      match parseUnits (or_zero amountText) DECIMALS with
      | None => Some "Invalid swap amount."
      | Some amount => if amount <=? 0 then Some "Enter a positive swap amount." else None
      end
  | MintAwaitSigner _ _ _ rawAmount, SignerResolved (Some _) =>
      match parseUnits (or_zero rawAmount) DECIMALS with
      | None => Some "Invalid mint amount."
      | Some amount => if amount <=? 0 then Some "Enter a positive mint amount." else None
      end
  | SwapAwaitEncrypt _ _, Threw e
  | SwapAwaitSubmit, Threw e
  | SwapAwaitConfirm, Threw e => Some (message_of e "Swap failed")
  | MintAwaitSubmit, Threw e
  | MintAwaitConfirm, Threw e => Some (message_of e "Mint failed")
  | _, _ => None
  end.

End DexActions.

(** * Part II: properties *)

(** ** The 64-bit operators *)

Lemma FHE_modulus_eq : FHE.modulus = 2 ^ 64.
Proof. reflexivity. Qed.

Lemma FHE_in_rangeb_spec v : FHE.in_rangeb v = true ↔ FHE.in_range v.
Proof. unfold FHE.in_rangeb, FHE.in_range. rewrite andb_true_iff. lia. Qed.

Lemma FHE_wrap_range v : FHE.in_range (FHE.wrap v).
Proof. unfold FHE.in_range, FHE.wrap, FHE.modulus. apply Z.mod_pos_bound. lia. Qed.

Lemma FHE_wrap_id v : FHE.in_range v → FHE.wrap v = v.
Proof. unfold FHE.in_range, FHE.wrap. intros H. by apply Z.mod_small. Qed.

Lemma FHE_mul_range a b : FHE.in_range (FHE.mul a b).
Proof. apply FHE_wrap_range. Qed.

Lemma FHE_mul_exact a b : FHE.in_range (a * b) → FHE.mul a b = a * b.
Proof. apply FHE_wrap_id. Qed.

Lemma FHE_div_range a b : FHE.in_range a → 0 < b → FHE.in_range (FHE.div a b).
Proof.
  unfold FHE.in_range, FHE.div. intros [H0 H1] Hb. split.
  - by apply Z.div_pos.
  - eapply Z.le_lt_trans; [|exact H1].
    apply Z.div_le_upper_bound; nia.
Qed.

(** ** The ledger *)

Section LedgerFacts.

Lemma total_insert_fresh (m : gmap Z Z) k v :
  m !! k = None → total (<[k := v]> m) = v + total m.
Proof.
  intros Hk. unfold total.
  rewrite map_fold_insert_L; [done | intros; lia | done].
Qed.

Lemma total_delete (m : gmap Z Z) k v :
  m !! k = Some v → total m = v + total (delete k m).
Proof.
  intros Hk. unfold total.
  rewrite (map_fold_delete_L _ _ k v m); [done | intros; lia | done].
Qed.

Lemma total_insert (m : gmap Z Z) k v :
  total (<[k := v]> m) = total m - default 0 (m !! k) + v.
Proof.
  destruct (m !! k) as [w|] eqn:Hk; simpl.
  - rewrite <- insert_delete_eq.
    rewrite total_insert_fresh by apply lookup_delete_eq.
    rewrite (total_delete m k w Hk). lia.
  - rewrite total_insert_fresh by done. lia.
Qed.

Lemma total_nonneg (m : gmap Z Z) :
  map_Forall (λ _ v, 0 ≤ v) m → 0 ≤ total m.
Proof.
  induction m as [|k v m Hk IH] using map_ind; intros Hm.
  - done.
  - rewrite total_insert_fresh by done.
    apply map_Forall_insert in Hm as [Hv Hm]; [|done].
    specialize (IH Hm). lia.
Qed.

Lemma total_two (m : gmap Z Z) a b :
  map_Forall (λ _ v, 0 ≤ v) m → a ≠ b →
  default 0 (m !! a) + default 0 (m !! b) ≤ total m.
Proof.
  intros Hm Hab.
  assert (Hone : ∀ (n : gmap Z Z) k, map_Forall (λ _ v, 0 ≤ v) n →
                   default 0 (n !! k) ≤ total n).
  { intros n k Hn. destruct (n !! k) as [w|] eqn:Hk; simpl.
    - rewrite (total_delete n k w Hk).
      pose proof (total_nonneg (delete k n) (map_Forall_delete _ _ _ Hn)). lia.
    - by apply total_nonneg. }
  destruct (m !! a) as [w|] eqn:Ha; simpl.
  - rewrite (total_delete m a w Ha).
    pose proof (Hone (delete a m) b (map_Forall_delete _ _ _ Hm)) as Hb.
    rewrite lookup_delete_ne in Hb by done. lia.
  - pose proof (Hone m b Hm). lia.
Qed.

Lemma balanceOf_nonneg l a :
  map_Forall (λ _ v, 0 ≤ v) (balances l) → 0 ≤ balanceOf l a.
Proof.
  intros Hm. unfold balanceOf.
  destruct (balances l !! a) as [w|] eqn:Ha; simpl; [|done].
  exact (Hm a w Ha).
Qed.

Lemma settle_bounds p available requested transferred :
  0 ≤ available → 0 ≤ requested →
  settle p available requested = Some transferred →
  0 ≤ transferred ≤ available ∧ transferred ≤ requested.
Proof.
  unfold settle. intros Ha Hr.
  destruct (Z.leb_spec requested available); [intros [= <-]; lia|].
  destruct p; intros [= <-]; lia.
Qed.

Lemma settle_covered p available requested :
  requested ≤ available → settle p available requested = Some requested.
Proof. unfold settle. intros H. by rewrite (proj2 (Z.leb_le _ _) H). Qed.

(** What a successful movement does to a well-formed ledger, for distinct
    holder and recipient. *)
Lemma move_spec l from to amount transferred l' :
  ledger_wf l → 0 ≤ amount → from ≠ to →
  move l from to amount = Ok (transferred, l') →
  settle (shortfall l) (balanceOf l from) amount = Some transferred
  ∧ balanceOf l' from = balanceOf l from - transferred
  ∧ balanceOf l' to = balanceOf l to + transferred
  ∧ (∀ a, a ≠ from → a ≠ to → balanceOf l' a = balanceOf l a)
  ∧ supply l' = supply l
  ∧ operators l' = operators l
  ∧ shortfall l' = shortfall l
  ∧ ledger_wf l'.
Proof.
  intros [Hnn Hsup] Hamt Hne. unfold move.
  destruct (settle _ _ _) as [t|] eqn:Hs; [|done].
  intros [= <- <-].
  pose proof (balanceOf_nonneg l from Hnn) as Hf.
  pose proof (balanceOf_nonneg l to Hnn) as Hto.
  destruct (settle_bounds _ _ _ _ Hf Hamt Hs) as [[Ht0 Ht1] Ht2].
  pose proof (total_two (balances l) from to Hnn Hne) as Htwo.
  fold (balanceOf l from) (balanceOf l to) in Htwo.
  fold (supply l) in Htwo. unfold supply in Hsup, Htwo. fold (total (balances l)) in Hsup, Htwo.
  assert (Hsub : FHE.sub (balanceOf l from) t = balanceOf l from - t).
  { apply FHE_wrap_id. unfold FHE.in_range. lia. }
  assert (Hadd : FHE.add (balanceOf l to) t = balanceOf l to + t).
  { apply FHE_wrap_id. unfold FHE.in_range. lia. }
  rewrite lookup_insert_ne by done. fold (balanceOf l to).
  rewrite Hsub, Hadd.
  set (m' := <[to := balanceOf l to + t]>
               (<[from := balanceOf l from - t]> (balances l))).
  assert (Hfrom' : default 0 (m' !! from) = balanceOf l from - t).
  { unfold m'. rewrite lookup_insert_ne by done. by rewrite lookup_insert_eq. }
  assert (Hto' : default 0 (m' !! to) = balanceOf l to + t).
  { unfold m'. by rewrite lookup_insert_eq. }
  assert (Hsupply : total m' = total (balances l)).
  { unfold m'. rewrite !total_insert. rewrite lookup_insert_ne by done.
    fold (balanceOf l from) (balanceOf l to). lia. }
  split_and!; try done.
  - intros a Haf Hat. unfold balanceOf, m'; simpl.
    by rewrite !lookup_insert_ne by done.
  - split; simpl.
    + unfold m'. apply map_Forall_insert_2; [lia|].
      apply map_Forall_insert_2; [lia|done].
    + unfold supply; simpl. fold (total m'). by rewrite Hsupply.
Qed.

End LedgerFacts.


(** ** Access control *)

Section AccessFacts.

Import OpaqueSwap.

Lemma listed_here pairs h a : listed ((h, a) :: pairs) h a = true.
Proof. unfold listed. apply bool_decide_eq_true_2, elem_of_cons. by left. Qed.

Lemma listed_further pairs h a h' a' :
  listed pairs h' a' = true → listed ((h, a) :: pairs) h' a' = true.
Proof.
  unfold listed. intros H%bool_decide_eq_true_1.
  apply bool_decide_eq_true_2, elem_of_cons. by right.
Qed.

Lemma listed_other pairs h a h' a' :
  a' ≠ a → listed ((h, a) :: pairs) h' a' = listed pairs h' a'.
Proof.
  intros Hne. unfold listed. apply bool_decide_ext. rewrite elem_of_cons.
  split; [|by right]. intros [[= _ ?]|?]; done.
Qed.

Lemma isAllowed_allowTransient_here c h a : isAllowed (allowTransient c h a) h a = true.
Proof. unfold isAllowed; simpl. by rewrite listed_here. Qed.

Lemma isAllowed_allowTransient c h a h' a' :
  isAllowed c h' a' = true → isAllowed (allowTransient c h a) h' a' = true.
Proof.
  unfold isAllowed; simpl. intros [H|H]%orb_true_iff; apply orb_true_iff; [left|by right].
  by apply listed_further.
Qed.

Lemma isAllowed_allow c h a h' a' :
  isAllowed c h' a' = true → isAllowed (allow c h a) h' a' = true.
Proof.
  unfold isAllowed; simpl. intros [H|H]%orb_true_iff; apply orb_true_iff; [by left|right].
  by apply listed_further.
Qed.

(** The engine's preparation grants nothing to any other account, and
    takes nothing away. *)
Lemma isAllowed_prepared_other d sw handle c h account :
  account ≠ this sw →
  isAllowed (prepared d sw handle c) h account = isAllowed c h account.
Proof.
  intros Hne. unfold prepared, isAllowed; simpl. by rewrite !listed_other by done.
Qed.


Lemma operate_run this operand result c :
  isAllowed c (handle_of operand) this = true →
  FHEVM.operate this operand result c
  = (Ok result, allowTransient c (handle_of result) this).
Proof. unfold FHEVM.operate. by intros ->. Qed.

Lemma allowThis_run sw x c :
  isAllowed c (handle_of x) (this sw) = true →
  allowThis sw x c = (Ok tt, allow c (handle_of x) (this sw)).
Proof. unfold allowThis. by intros ->. Qed.

End AccessFacts.

(** ** The swap engine *)

Section SwapSteps.

Import OpaqueSwap.

(** Both source functions are the same sequence: the engine takes in the
    input, converts it and grants itself the two handles, none of which
    can fail once the proof is accepted, and then asks for the two
    transfers. *)
Lemma swap_steps d sw msg_sender handle proof (c : Chain) :
  swap d sw msg_sender handle proof c =
  match ingest sw msg_sender handle proof with
  | Revert e => (Revert e, c)
  | Ok amountIn =>
      match transfer_in d sw msg_sender (amount_in handle amountIn)
              (prepared d sw handle c) with
      | (Revert e, c1) => (Revert e, c1)
      | (Ok _, c1) =>
          match transfer_out d sw msg_sender (amount_out d handle amountIn) c1 with
          | (Revert e, c2) => (Revert e, c2)
          | (Ok transferredOut, c2) =>
              (Ok transferredOut,
               add_log c2 (swap_event d msg_sender amountIn transferredOut))
          end
      end
  end.
Proof.
  unfold ingest, transfer_in, transfer_out, prepared.
  destruct d; simpl;
    unfold swapWethForWusdt, swapWusdtForWeth, mbind, evm_bind, FHEVM.fromExternal,
      FHEVM.mul, FHEVM.div;
    destruct (fromExternal _ _ _ _) as [v|]; try reflexivity;
    rewrite operate_run by apply isAllowed_allowTransient_here;
    rewrite allowThis_run
      by apply isAllowed_allowTransient, isAllowed_allowTransient_here;
    rewrite allowThis_run by apply isAllowed_allow, isAllowed_allowTransient_here;
    unfold wETH_confidentialTransferFrom, wUSDT_confidentialTransferFrom,
      wETH_confidentialTransfer, wUSDT_confidentialTransfer, amount_in, amount_out,
      handle_out, convert, forward, reverse, mret, evm_ret, emit; simpl;
    destruct (call_ledger _ _ _) as [[?|?] ?]; try reflexivity;
    destruct (call_ledger _ _ _) as [[?|?] ?]; reflexivity.
Qed.

Lemma ingest_range sw msg_sender handle proof amountIn :
  ingest sw msg_sender handle proof = Ok amountIn → FHE.in_range amountIn.
Proof.
  unfold ingest, fromExternal.
  destruct (_ && _); [|done].
  destruct (attested_value _ _) as [v|]; [|done].
  destruct (FHE.in_rangeb v) eqn:Hv; [|done].
  intros [= <-]. by apply FHE_in_rangeb_spec.
Qed.

Lemma convert_range d amountIn :
  FHE.in_range amountIn → FHE.in_range (convert d amountIn).
Proof.
  intros H. destruct d; simpl.
  - apply FHE_mul_range.
  - by apply FHE_div_range.
Qed.

End SwapSteps.


Example fixture_forward :
  let '(r, c') := transact (OpaqueSwap.swapWethForWusdt Fixture.engine Fixture.alice
                     Fixture.handle (Fixture.input 2000000)) (Fixture.chain TransferNothing) in
  r = Ok 6200000000
  ∧ token_balance c' 100 Fixture.alice = 3000000
  ∧ token_balance c' 200 Fixture.alice = 12400000000.
Proof. vm_compute. done. Qed.

Example fixture_reverse :
  let '(r, c') := transact (OpaqueSwap.swapWusdtForWeth Fixture.engine Fixture.alice
                     Fixture.handle (Fixture.input 6200000000)) (Fixture.chain TransferNothing) in
  r = Ok 2000000
  ∧ token_balance c' 100 Fixture.alice = 7000000
  ∧ token_balance c' 200 Fixture.alice = 0.
Proof. vm_compute. done. Qed.

Lemma fixture_weth_wf p : ledger_wf (Fixture.weth p).
Proof.
  split; [|vm_compute; reflexivity].
  apply (bool_decide_unpack _). by destruct p; vm_compute.
Qed.

Lemma fixture_wusdt_wf p : ledger_wf (Fixture.wusdt p).
Proof.
  split; [|vm_compute; reflexivity].
  apply (bool_decide_unpack _). by destruct p; vm_compute.
Qed.

Section SwapFacts.

Import OpaqueSwap.

Lemma call_ledger_ok a f c r c' :
  call_ledger a f c = (Ok r, c') →
  ∃ l l', tokens c !! a = Some l ∧ f c l = Ok (r, l') ∧ c' = set_token c a l'.
Proof.
  unfold call_ledger. destruct (tokens c !! a) as [l|]; [|discriminate].
  destruct (f c l) as [[r' l']|] eqn:Hf; [|discriminate].
  intros [= <- <-]. by exists l, l'.
Qed.

(** A transfer-in that goes through found the grant, found the ledger
    allowed on the amount, and moved it. *)
Lemma transfer_in_ok d sw caller amountIn c r c1 :
  transfer_in d sw caller amountIn c = (Ok r, c1) →
  ∃ lin lin',
    tokens c !! asset_in d sw = Some lin
    ∧ isOperator lin (timestamp c) caller (this sw) = true
    ∧ isAllowed c (handle_of amountIn) (asset_in d sw) = true
    ∧ move lin caller (this sw) amountIn = Ok (r, lin')
    ∧ c1 = set_token c (asset_in d sw) lin'.
Proof.
  intros H. apply call_ledger_ok in H as (lin & lin' & Hlin & Hcall & ->).
  unfold confidentialTransferFrom, computing_on in Hcall.
  destruct (isOperator lin _ _ _) eqn:Hop; [|discriminate].
  destruct (isAllowed c _ _) eqn:Hacc; [|discriminate].
  by exists lin, lin'.
Qed.

Lemma transfer_out_ok d sw caller amountOut c r c2 :
  transfer_out d sw caller amountOut c = (Ok r, c2) →
  ∃ lout lout',
    tokens c !! asset_out d sw = Some lout
    ∧ isAllowed c (handle_of amountOut) (asset_out d sw) = true
    ∧ move lout (this sw) caller amountOut = Ok (r, lout')
    ∧ c2 = set_token c (asset_out d sw) lout'.
Proof.
  intros H. apply call_ledger_ok in H as (lout & lout' & Hlout & Hcall & ->).
  unfold confidentialTransfer, computing_on in Hcall.
  destruct (isAllowed c _ _) eqn:Hacc; [|discriminate].
  by exists lout, lout'.
Qed.




(** A swap that ends normally went through its three sub-steps. *)
Lemma swap_ok_inv d sw msg_sender handle proof c out c' :
  transact (swap d sw msg_sender handle proof) c = (Ok out, c') →
  ∃ amountIn transferredIn c1 c2,
    ingest sw msg_sender handle proof = Ok amountIn
    ∧ transfer_in d sw msg_sender (amount_in handle amountIn) (prepared d sw handle c)
      = (Ok transferredIn, c1)
    ∧ transfer_out d sw msg_sender (amount_out d handle amountIn) c1 = (Ok out, c2)
    ∧ c' = end_transaction (add_log c2 (swap_event d msg_sender amountIn out)).
Proof.
  unfold transact. rewrite swap_steps.
  destruct (ingest _ _ _ _) as [amountIn|] eqn:H0; [|discriminate].
  destruct (transfer_in _ _ _ _ _) as [[tin|] c1] eqn:H1; [|discriminate].
  destruct (transfer_out _ _ _ _ c1) as [[tout|] c2] eqn:H2; [|discriminate].
  intros [= <- <-]. by exists amountIn, tin, c1, c2.
Qed.

(** The chain a successful swap leaves behind, in terms of the two ledger
    movements it made. *)
Lemma swap_ok_shape d sw caller handle proof c out c' :
  transact (swap d sw caller handle proof) c = (Ok out, c') →
  ∃ amountIn debited lin lin' lout lout',
    ingest sw caller handle proof = Ok amountIn
    ∧ tokens c !! asset_in d sw = Some lin
    ∧ isOperator lin (timestamp c) caller (this sw) = true
    ∧ move lin caller (this sw) amountIn = Ok (debited, lin')
    ∧ <[asset_in d sw := lin']> (tokens c) !! asset_out d sw = Some lout
    ∧ move lout (this sw) caller (convert d amountIn) = Ok (out, lout')
    ∧ c' = end_transaction
             (add_log (set_token (set_token (prepared d sw handle c)
                                    (asset_in d sw) lin') (asset_out d sw) lout')
                (swap_event d caller amountIn out)).
Proof.
  intros Hrun.
  apply swap_ok_inv in Hrun as (amountIn & tin & c1 & c2 & Hin & H1 & H2 & ->).
  apply transfer_in_ok in H1 as (lin & lin' & Hlin & Hop & _ & Hm1 & ->).
  apply transfer_out_ok in H2 as (lout & lout' & Hlout & _ & Hm2 & ->).
  by exists amountIn, tin, lin, lin', lout, lout'.
Qed.

(** A swap that ends normally found both ledgers allowed on its amounts. *)
Lemma swap_ok_access d sw caller handle proof c out c' :
  transact (swap d sw caller handle proof) c = (Ok out, c') →
  isAllowed (prepared d sw handle c) (Input handle) (asset_in d sw) = true
  ∧ isAllowed (prepared d sw handle c) (handle_out d handle) (asset_out d sw) = true.
Proof.
  intros Hrun.
  apply swap_ok_inv in Hrun as (amountIn & tin & c1 & c2 & Hin & H1 & H2 & ->).
  apply transfer_in_ok in H1 as (lin & lin' & _ & _ & Hacc1 & _ & ->).
  apply transfer_out_ok in H2 as (lout & lout' & _ & Hacc2 & _ & _).
  done.
Qed.

(** A swap only reverts because one of its sub-steps did, and then the
    chain is the one before the call. *)
Lemma swap_revert_inv d sw caller handle proof c e c' :
  transact (swap d sw caller handle proof) c = (Revert e, c') →
  c' = c ∧ substep_fails d sw caller handle proof c e.
Proof.
  unfold transact. rewrite swap_steps.
  destruct (ingest _ _ _ _) as [amountIn|e0] eqn:Hin.
  - destruct (transfer_in _ _ _ _ _) as [[tin|e1] c1] eqn:H1.
    + destruct (transfer_out _ _ _ _ c1) as [[tout|e2] c2] eqn:H2; [discriminate|].
      intros [= <- <-]. split; [done|]. by eapply transfer_out_fails.
    + intros [= <- <-]. split; [done|]. by eapply transfer_in_fails.
  - intros [= <- <-]. split; [done|]. by apply ingest_fails.
Qed.

Lemma substep_failure_reverts d sw caller handle proof c e :
  substep_fails d sw caller handle proof c e →
  transact (swap d sw caller handle proof) c = (Revert e, c).
Proof.
  intros Hfail. unfold transact. rewrite swap_steps.
  destruct Hfail as [Hin | amountIn c1 Hin H1 | amountIn tin c1 c2 Hin H1 H2].
  - by rewrite Hin.
  - by rewrite Hin, H1.
  - by rewrite Hin, H1, H2.
Qed.

(** Without a grant the transfer-in is refused before anything else is
    looked at. *)
Lemma swap_without_grant d sw caller handle proof c lin amountIn :
  ingest sw caller handle proof = Ok amountIn →
  tokens c !! asset_in d sw = Some lin →
  isOperator lin (timestamp c) caller (this sw) = false →
  transact (swap d sw caller handle proof) c
  = (Revert (UnauthorizedSpender caller (this sw)), c).
Proof.
  intros Hin Hlin Hop. apply substep_failure_reverts.
  apply (transfer_in_fails _ _ _ _ _ _ _ amountIn (prepared d sw handle c)); [done|].
  unfold transfer_in, call_ledger. simpl. rewrite Hlin.
  unfold confidentialTransferFrom. by rewrite Hop.
Qed.

(** A ledger that is not allowed on the input handle stops the call,
    whatever else holds: the engine's own grants are to itself only. *)
Lemma swap_blocked d sw caller handle proof c :
  asset_in d sw ≠ this sw →
  isAllowed c (Input handle) (asset_in d sw) = false →
  ∃ e, transact (swap d sw caller handle proof) c = (Revert e, c).
Proof.
  intros Hne Hacc. unfold transact. rewrite swap_steps.
  destruct (ingest _ _ _ _) as [v|e]; [|eauto].
  unfold transfer_in, call_ledger. simpl.
  destruct (tokens c !! asset_in d sw) as [l|]; [|eauto].
  unfold confidentialTransferFrom, computing_on.
  destruct (isOperator _ _ _ _); [|eauto].
  simpl. rewrite isAllowed_prepared_other, Hacc by done. eauto.
Qed.

(** With a valid input and an unexpired grant, the error is the access
    control list's. *)
Lemma swap_blocked_at_transfer_in d sw caller handle proof c lin amountIn :
  tokens c !! asset_in d sw = Some lin →
  ingest sw caller handle proof = Ok amountIn →
  isOperator lin (timestamp c) caller (this sw) = true →
  asset_in d sw ≠ this sw →
  isAllowed c (Input handle) (asset_in d sw) = false →
  transact (swap d sw caller handle proof) c
  = (Revert (ACLNotAllowed (Input handle) (asset_in d sw)), c).
Proof.
  intros Hlin Hin Hop Hne Hacc. apply substep_failure_reverts.
  apply (transfer_in_fails _ _ _ _ _ _ _ amountIn (prepared d sw handle c)); [done|].
  unfold transfer_in, call_ledger. simpl. rewrite Hlin.
  unfold confidentialTransferFrom, computing_on. rewrite Hop. simpl.
  by rewrite isAllowed_prepared_other, Hacc by done.
Qed.

Lemma engine_only_blocks sw c h account :
  engine_only sw c → account ≠ this sw → isAllowed c h account = false.
Proof.
  intros Honly Hne. destruct (isAllowed c h account) eqn:H; [|done].
  by apply Honly in H.
Qed.

End SwapFacts.

(** *** Rate conversion *)

Lemma reverse_floor x :
  0 ≤ x → 3100 * reverse x ≤ x < 3100 * (reverse x + 1).
Proof.
  intros Hx. unfold reverse, FHE.div, OpaqueSwap.WETH_TO_WUSDT_RATE.
  pose proof (Z.div_mod x 3100 ltac:(lia)) as Hdm.
  pose proof (Z.mod_pos_bound x 3100 ltac:(lia)) as Hm. lia.
Qed.

Lemma reverse_below_rate x : 0 ≤ x < 3100 → reverse x = 0.
Proof. intros Hx. unfold reverse, FHE.div. by apply Z.div_small. Qed.

Lemma reverse_zero_iff x : 0 ≤ x → (reverse x = 0 ↔ x < 3100).
Proof.
  intros Hx. pose proof (reverse_floor x Hx) as Hf. split.
  - intros H0. rewrite H0 in Hf. lia.
  - intros Hlt. apply reverse_below_rate. lia.
Qed.

Lemma forward_exact x : 0 ≤ x → x * 3100 < 2 ^ 64 → forward x = x * 3100.
Proof.
  intros H0 H1. unfold forward, OpaqueSwap.WETH_TO_WUSDT_RATE.
  apply FHE_mul_exact. unfold FHE.in_range. rewrite FHE_modulus_eq. lia.
Qed.

Lemma forward_wrapped x : 2 ^ 64 ≤ x * 3100 → reverse (forward x) < x.
Proof.
  intros Hge.
  pose proof (FHE_mul_range x OpaqueSwap.WETH_TO_WUSDT_RATE) as [Hlo Hhi].
  fold (forward x) in Hlo, Hhi. rewrite FHE_modulus_eq in Hhi.
  unfold reverse, FHE.div, OpaqueSwap.WETH_TO_WUSDT_RATE.
  apply Z.div_lt_upper_bound; lia.
Qed.

(** No conversion into 64 bits can be undone by [reverse] at the top of
    the range: the round trip fails there whatever happens on overflow. *)
Lemma reverse_never_reaches_top (f : Z → Z) :
  (∀ x, FHE.in_range (f x)) → reverse (f (2 ^ 64 - 1)) ≠ 2 ^ 64 - 1.
Proof.
  intros Hf. destruct (Hf (2 ^ 64 - 1)) as [Hlo Hhi]. rewrite FHE_modulus_eq in Hhi.
  pose proof (reverse_floor _ Hlo). lia.
Qed.


Section SwapEffect.

Import OpaqueSwap.

Variables (d : Direction) (sw : OpaqueSwap.t) (msg_sender handle : Z) (proof : InputProof).
Variables (c : Chain) (lin lout : Ledger).

Hypothesis Hlin : tokens c !! asset_in d sw = Some lin.
Hypothesis Hlout : tokens c !! asset_out d sw = Some lout.
Hypothesis Hassets : asset_in d sw ≠ asset_out d sw.


(** The effect of a swap that went through, on well-formed ledgers. *)
Lemma swap_effect out c' :
  ledger_wf lin → ledger_wf lout → msg_sender ≠ this sw →
  transact (swap d sw msg_sender handle proof) c = (Ok out, c') →
  ∃ amountIn debited,
    ingest sw msg_sender handle proof = Ok amountIn
    ∧ isOperator lin (timestamp c) msg_sender (this sw) = true
    ∧ settle (shortfall lin) (balanceOf lin msg_sender) amountIn = Some debited
    ∧ settle (shortfall lout) (balanceOf lout (this sw)) (convert d amountIn) = Some out
    ∧ token_balance c' (asset_in d sw) msg_sender = balanceOf lin msg_sender - debited
    ∧ token_balance c' (asset_out d sw) msg_sender = balanceOf lout msg_sender + out
    ∧ token_supply c' (asset_in d sw) = supply lin
    ∧ token_supply c' (asset_out d sw) = supply lout.
Proof using Hlin Hlout Hassets.
  intros Hwin Hwout Hne Hrun.
  apply swap_ok_shape in Hrun
    as (amountIn & tin & l1 & l1' & l2 & l2' & Hin & Hl1 & Hop & Hm1 & Hl2 & Hm2 & ->).
  pose proof (ingest_range _ _ _ _ _ Hin) as Hrange.
  pose proof (convert_range d _ Hrange) as Hrange'.
  exists amountIn, tin.
  rewrite Hlin in Hl1. injection Hl1 as <-.
  apply move_spec in Hm1
    as (Hs1 & Hb1 & _ & _ & Hsup1 & _ & _ & _); [|done|apply Hrange|done].
  rewrite lookup_insert_ne in Hl2 by done.
  rewrite Hlout in Hl2. injection Hl2 as <-.
  apply move_spec in Hm2
    as (Hs2 & _ & Hb2 & _ & Hsup2 & _ & _ & _); [|done|apply Hrange'|done].
  unfold token_balance, token_supply; simpl.
  rewrite lookup_insert_eq. rewrite lookup_insert_ne by done. rewrite lookup_insert_eq.
  by split_and!.
Qed.

End SwapEffect.

(** *** The transfers are refused *)

Section SwapRefused.

Import OpaqueSwap.



(** C2. Neither swap function returns.  When no account but the engine is
    allowed on any handle, as when the contracts have just been deployed,
    every call, in either direction, from any caller and with any input,
    reverts: there is no returned amount, the outgoing
    [confidentialTransfer] is not reached, and the chain is unchanged, so
    that the same holds for the next call.  After any list of calls the
    chain is the one before them. *)
Theorem swap_never_returns sw c calls :
  engine_only sw c → wETH sw ≠ this sw → wUSDT sw ≠ this sw →
  (∀ call, ∃ e, run_call sw call c = (Revert e, c))
  ∧ (∀ call out c', run_call sw call c ≠ (Ok out, c'))
  ∧ after_calls sw c calls = c.
Proof.
  intros Honly Hweth Hwusdt.
  assert (Hall : ∀ call, ∃ e, run_call sw call c = (Revert e, c)).
  { intros [d caller handle proof]. unfold run_call; simpl.
    apply swap_blocked.
    - by destruct d.
    - apply (engine_only_blocks sw); [done|by destruct d]. }
  split; [exact Hall|]. split.
  - intros call out c' Hrun. destruct (Hall call) as [e He]. congruence.
  - unfold after_calls. induction calls as [|call calls IH]; [done|].
    simpl. destruct (Hall call) as [e He]. by rewrite He.
Qed.

Lemma swap_never_returns_witness :
  let c := Fixture.tested TransferNothing in
  let forward_call :=
    {| call_direction := Forward; call_sender := Fixture.alice;
       call_handle := Fixture.handle; call_proof := Fixture.input (2 * Fixture.UNIT) |} in
  let reverse_call :=
    {| call_direction := Reverse; call_sender := Fixture.alice;
       call_handle := Fixture.handle; call_proof := Fixture.input (6200 * Fixture.UNIT) |} in
  (∃ e, run_call Fixture.engine forward_call c = (Revert e, c))
  ∧ (∃ e, run_call Fixture.engine reverse_call c = (Revert e, c))
  ∧ after_calls Fixture.engine c [forward_call; reverse_call] = c.
Proof.
  intros c forward_call reverse_call.
  destruct (swap_never_returns Fixture.engine c [forward_call; reverse_call])
    as (H1 & _ & H2).
  - intros h account H. vm_compute in H. discriminate.
  - simpl. lia.
  - simpl. lia.
  - split; [apply H1|]. split; [apply H1|exact H2].
Defined.

(** C3. [swapWusdtForWeth] computes the floor quotient and then fails to
    use it.  For a valid input of [amountIn] the amount it prepares for the
    outgoing transfer is [amountIn / 3100], the largest [q] with
    [3100 * q <= amountIn], which is 0 below 3100.  But with an unexpired
    grant and a wUSDT ledger that has not been allowed on the input handle
    the call reverts at the transfer-in: the caller's wUSDT is not debited
    and no wETH is credited, not even zero. *)
Theorem reverse_swap_debits_nothing sw caller handle proof c lu amountIn :
  tokens c !! wUSDT sw = Some lu →
  ingest sw caller handle proof = Ok amountIn →
  isOperator lu (timestamp c) caller (this sw) = true →
  wUSDT sw ≠ this sw →
  isAllowed c (Input handle) (wUSDT sw) = false →
  let quotient := cleartext (amount_out Reverse handle amountIn) in
  ((amountIn' ← FHEVM.fromExternal (this sw) caller handle proof;
    FHEVM.div (this sw) amountIn' WETH_TO_WUSDT_RATE) c
   = (Ok (amount_out Reverse handle amountIn),
      allowTransient (allowTransient c (Input handle) (this sw))
        (handle_out Reverse handle) (this sw)))
  ∧ quotient = amountIn / 3100
  ∧ 3100 * quotient ≤ amountIn < 3100 * (quotient + 1)
  ∧ (amountIn < 3100 → quotient = 0)
  ∧ transact (swapWusdtForWeth sw caller handle proof) c
    = (Revert (ACLNotAllowed (Input handle) (wUSDT sw)), c)
  ∧ (0 < amountIn →
     token_balance (snd (transact (swapWusdtForWeth sw caller handle proof) c))
       (wUSDT sw) caller
     ≠ token_balance c (wUSDT sw) caller - amountIn).
Proof.
  intros Hlu Hin Hop Hne Hacc quotient.
  pose proof (ingest_range _ _ _ _ _ Hin) as [Hlo _].
  pose proof (swap_blocked_at_transfer_in Reverse sw caller handle proof c lu amountIn
                Hlu Hin Hop Hne Hacc) as Hrun.
  simpl in Hrun. rewrite Hrun. subst quotient. simpl.
  split.
  { unfold mbind, evm_bind, FHEVM.fromExternal, FHEVM.div.
    unfold ingest in Hin. rewrite Hin.
    by rewrite operate_run by apply isAllowed_allowTransient_here. }
  split; [reflexivity|].
  split; [by apply reverse_floor|].
  split; [intros Hlt; by apply reverse_below_rate|].
  split; [reflexivity|lia].
Qed.

Lemma reverse_swap_debits_nothing_witness :
  let c := Fixture.tested TransferNothing in
  let call := transact (swapWusdtForWeth Fixture.engine Fixture.alice Fixture.handle
                          (Fixture.input 3099)) in
  cleartext (amount_out Reverse Fixture.handle 3099) = 0
  ∧ call c = (Revert (ACLNotAllowed (Input 77) 200), c)
  ∧ token_balance (snd (call c)) 200 Fixture.alice ≠ 6200 * Fixture.UNIT - 3099.
Proof.
  intros c call.
  destruct (reverse_swap_debits_nothing Fixture.engine Fixture.alice Fixture.handle
              (Fixture.input 3099) c (Fixture.wusdt TransferNothing) 3099)
    as (_ & _ & _ & H1 & H2 & H3).
  - reflexivity.
  - reflexivity.
  - reflexivity.
  - simpl. lia.
  - reflexivity.
  - split; [apply H1; lia|]. split; [exact H2|]. apply H3. lia.
Defined.

End SwapRefused.

(** C4 (as it holds on the code). For every 64-bit [amountIn], converting
    forward and back returns [amountIn] exactly when the product
    [amountIn * 3100] fits 64 bits; in particular
    [reverse (forward amountIn) = amountIn] for every [amountIn >= 0] with
    [amountIn * 3100 < 2^64]. *)
Theorem reverse_forward_round_trip amountIn :
  FHE.in_range amountIn →
  (amountIn * 3100 < 2 ^ 64 → reverse (forward amountIn) = amountIn)
  ∧ (reverse (forward amountIn) = amountIn → amountIn * 3100 < 2 ^ 64).
Proof.
  intros [H0 _]. split.
  - intros Hfit. rewrite forward_exact by done.
    unfold reverse, FHE.div, OpaqueSwap.WETH_TO_WUSDT_RATE.
    apply Z.div_mul. lia.
  - intros Hrt. destruct (Z.lt_ge_cases (amountIn * 3100) (2 ^ 64)) as [|Hge]; [done|].
    pose proof (forward_wrapped amountIn Hge). lia.
Qed.

Lemma reverse_forward_round_trip_witness :
  (1000000 * 3100 < 2 ^ 64 → reverse (forward 1000000) = 1000000)
  ∧ (reverse (forward 1000000) = 1000000 → 1000000 * 3100 < 2 ^ 64).
Proof.
  apply (reverse_forward_round_trip 1000000). vm_compute. split; [discriminate|reflexivity].
Defined.

(** C4 as stated fails on 64-bit amounts: at the largest one the product
    wraps around and the round trip yields another value. *)
Lemma reverse_forward_round_trip_fails :
  FHE.in_range 18446744073709551615
  ∧ 0 ≤ 18446744073709551615
  ∧ forward 18446744073709551615 = 18446744073709548516
  ∧ reverse (forward 18446744073709551615) = 5950562604422435
  ∧ reverse (forward 18446744073709551615) ≠ 18446744073709551615.
Proof. vm_compute. split_and!; try reflexivity; discriminate. Qed.

(** The smallest amount at which it fails. *)
Example round_trip_threshold :
  5950562604422436 * 3100 < 2 ^ 64 ≤ 5950562604422437 * 3100
  ∧ reverse (forward 5950562604422436) = 5950562604422436
  ∧ reverse (forward 5950562604422437) = 0.
Proof. vm_compute. split_and!; try reflexivity; discriminate. Qed.


(** *** Clamped transfers *)

(** What the specification's design note describes, on a chain where the
    ledgers are allowed on the handles: alice holds 5 wETH and asks to
    swap 6.  A clamping ledger debits nothing (or her 5), yet the engine
    pays out [forward] of the 6 requested. *)
Example clamped_swap_pays_for_nothing :
  let c := Fixture.chain TransferNothing in
  let '(r, c') := transact (OpaqueSwap.swapWethForWusdt Fixture.engine Fixture.alice
                     Fixture.handle (Fixture.input 6000000)) c in
  r = Ok 18600000000
  ∧ token_balance c' 100 Fixture.alice = token_balance c 100 Fixture.alice
  ∧ token_balance c' 200 Fixture.alice = token_balance c 200 Fixture.alice + 18600000000
  ∧ token_supply c' 100 = token_supply c 100
  ∧ token_supply c' 200 = token_supply c 200.
Proof. vm_compute. done. Qed.

Example clamp_to_balance_swap_overpays :
  let c := Fixture.chain TransferAvailable in
  let '(r, c') := transact (OpaqueSwap.swapWethForWusdt Fixture.engine Fixture.alice
                     Fixture.handle (Fixture.input 6000000)) c in
  r = Ok 18600000000
  ∧ token_balance c' 100 Fixture.alice = token_balance c 100 Fixture.alice - 5000000
  ∧ token_balance c' 200 Fixture.alice = token_balance c 200 Fixture.alice + 18600000000
  ∧ forward 5000000 = 15500000000.
Proof. vm_compute. done. Qed.

(** *** Atomicity *)

Section Atomicity.

Import OpaqueSwap.




End Atomicity.

(** *** Construction *)

(** C8. The constructor reverts with [InvalidTokenAddress] when either
    asset address is the null address, and the deployment then leaves no
    contract behind; otherwise it records both addresses as the token
    references, which [getTokenAddresses] returns. *)
Theorem constructor_rejects_null_address self wethAddress wusdtAddress deployed :
  (wethAddress = 0 ∨ wusdtAddress = 0 →
     OpaqueSwap.constructor self wethAddress wusdtAddress = Revert InvalidTokenAddress
     ∧ OpaqueSwap.deploy deployed self wethAddress wusdtAddress
       = (Revert InvalidTokenAddress, deployed))
  ∧ (wethAddress ≠ 0 → wusdtAddress ≠ 0 →
     ∃ sw, OpaqueSwap.constructor self wethAddress wusdtAddress = Ok sw
           ∧ OpaqueSwap.wETH sw = wethAddress
           ∧ OpaqueSwap.wUSDT sw = wusdtAddress
           ∧ OpaqueSwap.getTokenAddresses sw = (wethAddress, wusdtAddress)
           ∧ OpaqueSwap.deploy deployed self wethAddress wusdtAddress
             = (Ok self, <[self := sw]> deployed)).
Proof.
  unfold OpaqueSwap.deploy, OpaqueSwap.constructor. split.
  - intros Hnull.
    assert (Hb : (wethAddress =? 0) || (wusdtAddress =? 0) = true).
    { apply orb_true_iff. rewrite !Z.eqb_eq. exact Hnull. }
    by rewrite Hb.
  - intros Hw Hu.
    apply Z.eqb_neq in Hw, Hu. rewrite Hw, Hu. simpl.
    eexists. by split_and!.
Qed.

Lemma constructor_rejects_null_address_witness :
  (OpaqueSwap.constructor 300 0 200 = Revert InvalidTokenAddress
   ∧ OpaqueSwap.deploy ∅ 300 0 200 = (Revert InvalidTokenAddress, ∅))
  ∧ (OpaqueSwap.constructor 300 100 0 = Revert InvalidTokenAddress
     ∧ OpaqueSwap.deploy ∅ 300 100 0 = (Revert InvalidTokenAddress, ∅))
  ∧ ∃ sw, OpaqueSwap.constructor 300 100 200 = Ok sw
          ∧ OpaqueSwap.wETH sw = 100
          ∧ OpaqueSwap.wUSDT sw = 200
          ∧ OpaqueSwap.getTokenAddresses sw = (100, 200)
          ∧ OpaqueSwap.deploy ∅ 300 100 200 = (Ok 300, <[300 := sw]> ∅).
Proof.
  split; [|split].
  - apply (proj1 (constructor_rejects_null_address 300 0 200 ∅)). left. reflexivity.
  - apply (proj1 (constructor_rejects_null_address 300 100 0 ∅)). right. reflexivity.
  - apply (proj2 (constructor_rejects_null_address 300 100 200 ∅)); lia.
Defined.

(** ** The client *)

Section ClientFacts.

Import DexApp.

Ltac break_match :=
  match goal with
  | |- context [match ?x with _ => _ end] => destruct x eqn:?
  | |- context [if ?b then _ else _] => destruct b eqn:?
  end.

(** [decryptBalance] stops at its guards without touching anything but the
    status message. *)
Lemma decryptBalance_guarded token s :
  truthy (encrypted_of (encryptedBalances (view s)) token) = false
  ∨ encrypted_of (encryptedBalances (view s)) token = Some ZERO_HANDLE
  ∨ truthy (address (hooks s)) = false
  ∨ typedAddresses (hooks s) = None
  ∨ instance (hooks s) = false →
  ∃ m, decryptBalance token s = setStatusMessage (Some m) s.
Proof.
  intros Hguard. unfold decryptBalance.
  destruct (negb (truthy (address (hooks s))) || _ || _) eqn:Hsession; [eauto|].
  apply orb_false_iff in Hsession as [Hsession Hinst].
  apply orb_false_iff in Hsession as [Haddr Htyped].
  apply negb_false_iff in Hinst, Haddr, Htyped.
  apply bool_decide_eq_true_1 in Htyped as [typed Htyped].
  destruct Hguard as [H|[H|[H|[H|H]]]]; try congruence.
  - rewrite H. simpl. eauto.
  - rewrite H. unfold strict_eq. rewrite String.eqb_refl, orb_true_r. eauto.
Qed.

(** An event reveals a balance only by completing a decrypt handshake. *)
Lemma reveal_needs_decrypt s e token :
  decrypted_of (decryptedBalances (view s)) token = None →
  decrypted_of (decryptedBalances (view (step s e))) token ≠ None →
  ∃ i f h clearValue,
    e = Settle i (DecryptResult clearValue)
    ∧ tasks s !! i = Some (DecryptAwaitUserDecrypt f h)
    ∧ fr_token f = token.
Proof.
  intros Hmasked Hrevealed.
  destruct e as [t| | |i r|ms]; simpl in Hrevealed.
  - exfalso. apply Hrevealed. unfold decryptBalance.
    repeat break_match; simpl; done.
  - exfalso. apply Hrevealed. unfold refreshOnChainData.
    repeat break_match; simpl; done.
  - exfalso. apply Hrevealed. unfold refreshOnChainData.
    repeat break_match; simpl; done.
  - destruct (tasks s !! i) as [[f|f h|f h| |]|] eqn:Hi; try done.
    + exfalso. apply Hrevealed.
      destruct r as [[sg|]| | | |]; simpl; done.
    + exfalso. apply Hrevealed. destruct r; simpl; done.
    + destruct r as [| |cv| |]; simpl in Hrevealed; try done.
      destruct (decide (fr_token f = token)) as [Heq|Hne].
      * by exists i, f, h, cv.
      * exfalso. apply Hrevealed.
        destruct cv, (fr_token f), token; simpl in *; done.
    + exfalso. apply Hrevealed.
      destruct r; simpl; destruct token; done.
  - done.
Qed.

End ClientFacts.

Section ClientClaims.

Import DexApp.

(** C7. When the stored handle of [token] is missing (null or empty) or
    is the all-zero sentinel, [decryptBalance] runs to its end at once: it
    records no outgoing call (no keypair generation, no signature request,
    no [userDecrypt]), parks no task, leaves [isDecrypting] and the
    decrypted balances as they were, and only sets the status message, to
    "Encrypted balance not available yet." whenever the session is ready
    (the earlier guard has its own message otherwise). *)
Theorem decrypt_fails_closed s token :
  truthy (encrypted_of (encryptedBalances (view s)) token) = false
  ∨ encrypted_of (encryptedBalances (view s)) token = Some ZERO_HANDLE →
  calls (decryptBalance token s) = calls s
  ∧ keys (decryptBalance token s) = keys s
  ∧ tasks (decryptBalance token s) = tasks s
  ∧ isDecrypting (view (decryptBalance token s)) = isDecrypting (view s)
  ∧ decrypt_label (decryptBalance token s) token = decrypt_label s token
  ∧ decryptedBalances (view (decryptBalance token s)) = decryptedBalances (view s)
  ∧ statusMessage (view (decryptBalance token s))
    = Some (if session_ready s then "Encrypted balance not available yet."
            else "Connect wallet and initialize encryption to decrypt balances.").
Proof.
  intros Hhandle.
  destruct (decryptBalance_guarded token s) as [m Hm].
  { destruct Hhandle; auto. }
  rewrite Hm. split_and!; try reflexivity.
  assert (Hmsg : statusMessage (view (decryptBalance token s)) = Some m)
    by (by rewrite Hm).
  simpl. rewrite <- Hmsg. clear Hm Hmsg.
  unfold decryptBalance, session_ready.
  destruct (truthy (address (hooks s))); [|done].
  destruct (bool_decide (is_Some (typedAddresses (hooks s)))); [|done].
  destruct (instance (hooks s)); [|done]. simpl.
  destruct Hhandle as [H|H]; rewrite H; [done|].
  unfold strict_eq. by rewrite String.eqb_refl, orb_true_r.
Qed.

Lemma decrypt_fails_closed_witness :
  calls (decryptBalance weth Session.uninitialised) = calls Session.uninitialised
  ∧ keys (decryptBalance weth Session.uninitialised) = keys Session.uninitialised
  ∧ tasks (decryptBalance weth Session.uninitialised) = tasks Session.uninitialised
  ∧ isDecrypting (view (decryptBalance weth Session.uninitialised))
    = isDecrypting (view Session.uninitialised)
  ∧ decrypt_label (decryptBalance weth Session.uninitialised) weth
    = decrypt_label Session.uninitialised weth
  ∧ decryptedBalances (view (decryptBalance weth Session.uninitialised))
    = decryptedBalances (view Session.uninitialised)
  ∧ statusMessage (view (decryptBalance weth Session.uninitialised))
    = Some (if session_ready Session.uninitialised
            then "Encrypted balance not available yet."
            else "Connect wallet and initialize encryption to decrypt balances.").
Proof.
  apply (decrypt_fails_closed Session.uninitialised weth). right. vm_compute. reflexivity.
Defined.

Example zero_handle_click :
  let s' := step Session.uninitialised (ClickDecrypt weth) in
  statusMessage (view s') = Some "Encrypted balance not available yet."
  ∧ calls s' = calls Session.uninitialised ∧ isDecrypting (view s') = None.
Proof. vm_compute. done. Qed.

(** *** The refresh masks what was revealed *)

(** C10 (as it holds on the code). When the reads of [refreshOnChainData]
    succeed, both decrypted balances are [null] afterwards and render as
    "***", whatever had been revealed before.  From then on a balance shows
    a cleartext again only when a [userDecrypt] call of a decrypt handshake
    returns; that need not be a handshake run after the refresh: the answer
    to one that was in flight when the refresh completed is written as it
    comes, for the handle stored before the refresh, with no further call
    and with the new handles left in place. *)
Theorem refresh_masks_decrypted s i wethBalance wusdtBalance wethOperator wusdtOperator :
  tasks s !! i = Some RefreshAwaitReads →
  let s' := step s (Settle i (ReadResults wethBalance wusdtBalance
                                wethOperator wusdtOperator)) in
  decryptedBalances (view s') = {| dec_weth := None; dec_wusdt := None |}
  ∧ rendered_clear s' weth = "***"
  ∧ rendered_clear s' wusdt = "***"
  ∧ encryptedBalances (view s')
    = {| enc_weth := Some wethBalance; enc_wusdt := Some wusdtBalance |}
  ∧ isRefreshing (view s') = false
  ∧ (∀ e token,
       decrypted_of (decryptedBalances (view (step s' e))) token ≠ None →
       ∃ j f h clearValue,
         e = Settle j (DecryptResult clearValue)
         ∧ tasks s' !! j = Some (DecryptAwaitUserDecrypt f h)
         ∧ fr_token f = token)
  ∧ (∀ j f h n,
       tasks s !! j = Some (DecryptAwaitUserDecrypt f h) →
       let s'' := step s' (Settle j (DecryptResult (IsBigint n))) in
       decrypted_of (decryptedBalances (view s'')) (fr_token f) = Some n
       ∧ rendered_clear s'' (fr_token f) = formatUnits n DECIMALS
       ∧ calls s'' = calls s'
       ∧ encryptedBalances (view s'')
         = {| enc_weth := Some wethBalance; enc_wusdt := Some wusdtBalance |}).
Proof.
  intros Hi s'. subst s'. simpl. rewrite Hi. simpl.
  split_and!; try reflexivity.
  - intros e token. apply reveal_needs_decrypt. by destruct token.
  - intros j f h n Hj.
    assert (Hji : j ≠ i) by (intros ->; congruence).
    rewrite list_lookup_insert_ne by done. rewrite Hj. unfold rendered_clear. simpl.
    by destruct (fr_token f).
Qed.

Example revealed_shows_cleartext :
  rendered_clear Session.revealed weth = "5" ∧ rendered_clear Session.revealed wusdt = "***".
Proof. vm_compute. done. Qed.

Lemma refresh_masks_decrypted_witness :
  let s' := step (step Session.revealed CallRefresh)
              (Settle 2 (ReadResults "0xaa12" "0xbb23" true true)) in
  decrypted_of (decryptedBalances (view Session.revealed)) weth = Some 5000000
  ∧ decryptedBalances (view s') = {| dec_weth := None; dec_wusdt := None |}
  ∧ rendered_clear s' weth = "***"
  ∧ rendered_clear s' wusdt = "***".
Proof.
  split; [vm_compute; reflexivity|].
  destruct (refresh_masks_decrypted (step Session.revealed CallRefresh) 2
              "0xaa12" "0xbb23" true true) as (H1 & H2 & H3 & _).
  - vm_compute. reflexivity.
  - split_and!; assumption.
Defined.

(** C10 as stated fails in its last part.  The wETH balance is revealed
    and a second decrypt of it is in flight when a refresh completes: the
    balance is masked, the handle is a new one, and then the answer of the
    decryption service puts the old cleartext back on display, although no
    handshake was started after the refresh and no call was made. *)
Lemma refresh_then_stale_reveal :
  let s := run Session.revealed (take 5 Session.stale) in
  let later := drop 5 Session.stale in
  rendered_clear Session.revealed weth = "5"
  ∧ encrypted_of (encryptedBalances (view Session.revealed)) weth = Some "0xaa11"
  ∧ rendered_clear s weth = "***"
  ∧ encrypted_of (encryptedBalances (view s)) weth = Some "0xaa12"
  ∧ later = [Settle 2 (DecryptResult (IsBigint 5000000))]
  ∧ rendered_clear (run s later) weth = "5"
  ∧ calls (run s later) = calls s
  ∧ ¬ handshake_rerun_as_stated s later weth.
Proof.
  intros s later. split_and!; try (vm_compute; reflexivity).
  intros Hstated.
  assert (Hin : ClickDecrypt weth ∈ later) by (apply Hstated; vm_compute; discriminate).
  subst later. simpl in Hin. apply list_elem_of_singleton in Hin. discriminate.
Qed.

(** *** The validity window of the authorization *)

(** C9 (as it holds on the code). The authorization request built by the
    decrypt handshake carries the duration "10" in its [durationDays]
    argument, a number of days, while the start time it carries is
    [floor(Date.now() / 1000)], the instant in seconds; the window is
    864000 units of the start time, not 10.  This request is what
    [decryptBalance] has signed once the signer is available. *)
Theorem authorization_validity keypair contractAddress now_ms :
  0 ≤ now_ms →
  let request := authorization keypair contractAddress now_ms in
  eip_durationDays request = pretty 10
  ∧ eip_startTimeStamp request = pretty (instant_in Second now_ms)
  ∧ instant_in Second now_ms * ms_per Second ≤ now_ms
      < (instant_in Second now_ms + 1) * ms_per Second
  ∧ days_in Day 10 = 10
  ∧ days_in Second 10 = 864000
  ∧ ∀ s i f signer,
      clock s = now_ms →
      tasks s !! i = Some (DecryptAwaitSigner f) →
      ∃ kp ca,
        calls (step s (Settle i (SignerIs (Some signer))))
        = calls s ++ [GenerateKeypair;
                      CreateEIP712 (authorization kp ca now_ms);
                      SignTypedData (authorization kp ca now_ms)].
Proof.
  intros Hnow request. subst request. unfold instant_in, days_in. simpl.
  split; [reflexivity|]. split; [reflexivity|]. split.
  { pose proof (Z.div_mod now_ms 1000 ltac:(lia)).
    pose proof (Z.mod_pos_bound now_ms 1000 ltac:(lia)). lia. }
  split; [reflexivity|]. split; [reflexivity|].
  intros s i f signer Hclock Hi. rewrite Hi. simpl. rewrite Hclock.
  eexists _, _. rewrite <- !app_assoc. reflexivity.
Qed.

Lemma authorization_validity_witness :
  let request := authorization {| publicKey := "pk0"; privateKey := "sk0" |}
                   "0xE7H" 1700000000123 in
  eip_durationDays request = "10"
  ∧ eip_startTimeStamp request = "1700000000"
  ∧ days_in Second 10 = 864000.
Proof.
  destruct (authorization_validity {| publicKey := "pk0"; privateKey := "sk0" |}
              "0xE7H" 1700000000123) as (H1 & H2 & _ & _ & H3 & _).
  - lia.
  - split_and!; [exact H1 | exact H2 | exact H3].
Defined.

(** C9 as stated fails: at a clock reading of 1700000000123 ms the
    request starts at "1700000000" (seconds) and lasts "10" days; no unit
    makes both the start time and a duration of 10 come out. *)
Lemma authorization_same_unit_fails :
  ¬ same_unit_as_stated 1700000000123
      (authorization {| publicKey := "pk0"; privateKey := "sk0" |} "0xE7H" 1700000000123).
Proof.
  intros [u (Hstart & _ & Hten)].
  destruct u; vm_compute in Hstart, Hten; discriminate.
Qed.

(** *** Single flight *)

(** C6 fails on the code. After three events one wETH decrypt is in
    flight and the wETH button is disabled (a fourth event, a click on it,
    changes nothing); after six, with that request still in flight, the
    button is enabled again; after all nine, two [userDecrypt] requests
    for the same (account, wETH) pair are outstanding at once. *)
Theorem single_flight_violated :
  let at_ n := run Session.loaded (take n Session.interleaving) in
  in_flight (at_ 3%nat) Session.account weth = 1%nat
  ∧ decrypt_disabled (at_ 3%nat) weth = true
  ∧ at_ 4%nat = at_ 3%nat
  ∧ in_flight (at_ 6%nat) Session.account weth = 1%nat
  ∧ isDecrypting (view (at_ 6%nat)) = Some wusdt
  ∧ decrypt_disabled (at_ 6%nat) weth = false
  ∧ in_flight (at_ 9%nat) Session.account weth = 2%nat
  ∧ tasks (at_ 9%nat) !! 1%nat = tasks (at_ 3%nat) !! 1%nat
  ∧ length (filter (λ c, is_userDecrypt c = true) (calls (at_ 9%nat))) = 2%nat.
Proof. vm_compute. split_and!; reflexivity. Qed.

(** The busy flag is also cleared under a request that is still in
    flight, when another one finishes first. *)
Example busy_cleared_while_in_flight :
  let s := run Session.loaded
             (take 6%nat Session.interleaving
              ++ [Settle 2 (Rejected (ErrorObject "User rejected the request."))]) in
  in_flight s Session.account weth = 1%nat
  ∧ isDecrypting (view s) = None
  ∧ decrypt_label s weth = "Decrypt".
Proof. vm_compute. split_and!; reflexivity. Qed.

(** What the guard does achieve: a click on a disabled button is ignored. *)
Lemma disabled_click_ignored s token :
  decrypt_disabled s token = true → step s (ClickDecrypt token) = s.
Proof. intros H. simpl. by rewrite H. Qed.

End ClientClaims.

(** * Part III: further properties of the swap engine *)

Section SwapShape.

Import OpaqueSwap.




End SwapShape.

Section SwapExtras.

Import OpaqueSwap.

(** X1. After a successful [swapWusdtForWeth] on well-formed ledgers, the
    caller's wUSDT balance decreases by exactly the amount the transfer-in
    debited, the caller's wETH balance increases by exactly the amount the
    transfer-out moved, and the supply of each asset is unchanged; when the
    caller's wUSDT covers the request and the engine's wETH covers the
    quotient, the debit is the request and the credit is [amountIn / 3100]. *)
Theorem swap_reverse_conservation sw caller handle proof c out c' lw lu :
  tokens c !! wETH sw = Some lw →
  tokens c !! wUSDT sw = Some lu →
  wETH sw ≠ wUSDT sw →
  ledger_wf lw → ledger_wf lu → caller ≠ this sw →
  transact (swapWusdtForWeth sw caller handle proof) c = (Ok out, c') →
  ∃ amountIn debited,
    ingest sw caller handle proof = Ok amountIn
    ∧ settle (shortfall lu) (balanceOf lu caller) amountIn = Some debited
    ∧ settle (shortfall lw) (balanceOf lw (this sw)) (amountIn / 3100) = Some out
    ∧ token_balance c' (wUSDT sw) caller = token_balance c (wUSDT sw) caller - debited
    ∧ token_balance c' (wETH sw) caller = token_balance c (wETH sw) caller + out
    ∧ token_supply c' (wUSDT sw) = token_supply c (wUSDT sw)
    ∧ token_supply c' (wETH sw) = token_supply c (wETH sw)
    ∧ (amountIn ≤ token_balance c (wUSDT sw) caller →
       amountIn / 3100 ≤ token_balance c (wETH sw) (this sw) →
       debited = amountIn ∧ out = amountIn / 3100).
Proof.
  intros Hw Hu Hne Hwfw Hwfu Hcaller Hrun.
  assert (Hne' : asset_in Reverse sw ≠ asset_out Reverse sw) by (simpl; congruence).
  destruct (swap_effect Reverse sw caller handle proof c lu lw Hu Hw Hne' out c'
              Hwfu Hwfw Hcaller Hrun)
    as (amountIn & debited & Hin & _ & Hs1 & Hs2 & Hb1 & Hb2 & Hsup1 & Hsup2).
  exists amountIn, debited.
  unfold token_balance at 2 4 5 6, token_supply at 2 4. rewrite Hw, Hu.
  simpl in *. split_and!; try done.
  intros Hcov1 Hcov2.
  rewrite settle_covered in Hs1 by done. injection Hs1 as <-.
  unfold reverse, FHE.div, WETH_TO_WUSDT_RATE in Hs2.
  rewrite settle_covered in Hs2 by done. by injection Hs2 as <-.
Qed.

Lemma swap_reverse_conservation_witness :
  ∃ out c' amountIn debited,
    transact (swapWusdtForWeth Fixture.engine Fixture.alice Fixture.handle
                (Fixture.input 6200000000)) (Fixture.chain TransferNothing) = (Ok out, c')
    ∧ ingest Fixture.engine Fixture.alice Fixture.handle (Fixture.input 6200000000)
      = Ok amountIn
    ∧ token_balance c' 200 Fixture.alice
      = token_balance (Fixture.chain TransferNothing) 200 Fixture.alice - debited
    ∧ token_balance c' 100 Fixture.alice
      = token_balance (Fixture.chain TransferNothing) 100 Fixture.alice + out
    ∧ token_supply c' 200 = token_supply (Fixture.chain TransferNothing) 200
    ∧ token_supply c' 100 = token_supply (Fixture.chain TransferNothing) 100.
Proof.
  destruct (swap_reverse_conservation Fixture.engine Fixture.alice Fixture.handle
              (Fixture.input 6200000000) (Fixture.chain TransferNothing)
              2000000
              (snd (transact (swapWusdtForWeth Fixture.engine Fixture.alice
                      Fixture.handle (Fixture.input 6200000000))
                      (Fixture.chain TransferNothing)))
              (Fixture.weth TransferNothing) (Fixture.wusdt TransferNothing))
    as (amountIn & debited & H1 & _ & _ & H2 & H3 & H4 & H5 & _).
  - reflexivity.
  - reflexivity.
  - simpl. lia.
  - apply fixture_weth_wf.
  - apply fixture_wusdt_wf.
  - simpl. unfold Fixture.alice. lia.
  - vm_compute. reflexivity.
  - eexists _, _, amountIn, debited. split; [vm_compute; reflexivity|].
    split_and!; assumption.
Defined.



(** X3. In a successful swap the engine is the counterparty of both legs:
    its balance of the asset given grows by exactly what the caller was
    debited, and its balance of the asset received shrinks by exactly what
    the caller was credited, so that caller and engine together hold as
    much of each asset as before. *)
Theorem swap_engine_accounting d sw caller handle proof c out c' lin lout :
  tokens c !! asset_in d sw = Some lin →
  tokens c !! asset_out d sw = Some lout →
  asset_in d sw ≠ asset_out d sw →
  ledger_wf lin → ledger_wf lout → caller ≠ this sw →
  transact (swap d sw caller handle proof) c = (Ok out, c') →
  ∃ debited,
    token_balance c' (asset_in d sw) caller = balanceOf lin caller - debited
    ∧ token_balance c' (asset_in d sw) (this sw) = balanceOf lin (this sw) + debited
    ∧ token_balance c' (asset_out d sw) caller = balanceOf lout caller + out
    ∧ token_balance c' (asset_out d sw) (this sw) = balanceOf lout (this sw) - out
    ∧ token_balance c' (asset_in d sw) caller + token_balance c' (asset_in d sw) (this sw)
      = balanceOf lin caller + balanceOf lin (this sw)
    ∧ token_balance c' (asset_out d sw) caller + token_balance c' (asset_out d sw) (this sw)
      = balanceOf lout caller + balanceOf lout (this sw).
Proof.
  intros Hlin Hlout Hne Hwfin Hwfout Hcaller Hrun.
  apply swap_ok_shape in Hrun
    as (amountIn & debited & lin0 & lin' & lout0 & lout'
        & Hin & Hlin0 & Hop & Hm1 & Hlout0 & Hm2 & ->).
  rewrite Hlin in Hlin0. injection Hlin0 as <-.
  rewrite lookup_insert_ne, Hlout in Hlout0 by done. injection Hlout0 as <-.
  pose proof (ingest_range _ _ _ _ _ Hin) as Hrange.
  pose proof (convert_range d _ Hrange) as Hrange'.
  apply move_spec in Hm1 as (_ & Ha1 & Hb1 & _); [|done|apply Hrange|done].
  apply move_spec in Hm2 as (_ & Ha2 & Hb2 & _); [|done|apply Hrange'|done].
  exists debited. unfold token_balance; simpl.
  rewrite lookup_insert_eq. rewrite lookup_insert_ne by done. rewrite lookup_insert_eq.
  split_and!; try done; lia.
Qed.

Lemma swap_engine_accounting_witness :
  let c := Fixture.chain TransferNothing in
  let c' := snd (transact (swap Forward Fixture.engine Fixture.alice Fixture.handle
                             (Fixture.input 2000000)) c) in
  ∃ debited,
    token_balance c' 100 Fixture.alice = 5000000 - debited
    ∧ token_balance c' 100 300 = 20000000 + debited
    ∧ token_balance c' 200 Fixture.alice = 6200000000 + 6200000000
    ∧ token_balance c' 200 300 = 62000000000 - 6200000000.
Proof.
  intros c c'.
  destruct (swap_engine_accounting Forward Fixture.engine Fixture.alice Fixture.handle
              (Fixture.input 2000000) c 6200000000 c'
              (Fixture.weth TransferNothing) (Fixture.wusdt TransferNothing))
    as (debited & H1 & H2 & H3 & H4 & _).
  - reflexivity.
  - reflexivity.
  - simpl. lia.
  - apply fixture_weth_wf.
  - apply fixture_wusdt_wf.
  - simpl. unfold Fixture.alice. lia.
  - vm_compute. reflexivity.
  - exists debited. split_and!; assumption.
Defined.

(** X4. A successful swap appends exactly one event to the log, the one
    of its direction, carrying the caller, the requested [amountIn] (the
    value [FHE.fromExternal] yields, whatever was actually debited) and the
    returned [transferredOut]; earlier log entries are kept. *)
Theorem swap_emits_one_event d sw caller handle proof c out c' :
  transact (swap d sw caller handle proof) c = (Ok out, c') →
  ∃ amountIn,
    ingest sw caller handle proof = Ok amountIn
    ∧ logs c' = logs c ++ [swap_event d caller amountIn out]
    ∧ (d = Forward → last (logs c') = Some (SwapWethForWusdt caller amountIn out))
    ∧ (d = Reverse → last (logs c') = Some (SwapWusdtForWeth caller amountIn out)).
Proof.
  intros Hrun. apply swap_ok_shape in Hrun
    as (amountIn & debited & lin & lin' & lout & lout'
        & Hin & _ & _ & _ & _ & _ & ->).
  exists amountIn. simpl. split; [done|]. split; [done|].
  split; intros ->; by rewrite last_snoc.
Qed.

Lemma swap_emits_one_event_witness :
  let c := Fixture.chain TransferNothing in
  let c' := snd (transact (swap Forward Fixture.engine Fixture.alice Fixture.handle
                             (Fixture.input 6000000)) c) in
  ∃ amountIn,
    ingest Fixture.engine Fixture.alice Fixture.handle (Fixture.input 6000000) = Ok amountIn
    ∧ logs c' = logs c ++ [swap_event Forward Fixture.alice amountIn 18600000000].
Proof.
  intros c c'.
  destruct (swap_emits_one_event Forward Fixture.engine Fixture.alice Fixture.handle
              (Fixture.input 6000000) c 18600000000 c') as (amountIn & H1 & H2 & _).
  - vm_compute. reflexivity.
  - exists amountIn. split; assumption.
Defined.

(** X5. A swap never moves more than was asked for or than is held: the
    amount debited is at most the requested amount and at most the caller's
    balance, and the amount paid out is at most the converted amount and at
    most the engine's balance of the asset paid; neither is negative. *)
Theorem swap_amounts_bounded d sw caller handle proof c out c' lin lout :
  tokens c !! asset_in d sw = Some lin →
  tokens c !! asset_out d sw = Some lout →
  asset_in d sw ≠ asset_out d sw →
  ledger_wf lin → ledger_wf lout → caller ≠ this sw →
  transact (swap d sw caller handle proof) c = (Ok out, c') →
  ∃ amountIn debited,
    ingest sw caller handle proof = Ok amountIn
    ∧ token_balance c' (asset_in d sw) caller = balanceOf lin caller - debited
    ∧ 0 ≤ debited ≤ amountIn
    ∧ debited ≤ balanceOf lin caller
    ∧ 0 ≤ out ≤ convert d amountIn
    ∧ out ≤ balanceOf lout (this sw)
    ∧ 0 ≤ token_balance c' (asset_in d sw) caller
    ∧ 0 ≤ token_balance c' (asset_out d sw) (this sw).
Proof.
  intros Hlin Hlout Hne Hwfin Hwfout Hcaller Hrun.
  apply swap_ok_shape in Hrun
    as (amountIn & debited & lin0 & lin' & lout0 & lout'
        & Hin & Hlin0 & Hop & Hm1 & Hlout0 & Hm2 & ->).
  rewrite Hlin in Hlin0. injection Hlin0 as <-.
  rewrite lookup_insert_ne, Hlout in Hlout0 by done. injection Hlout0 as <-.
  pose proof (ingest_range _ _ _ _ _ Hin) as Hrange.
  pose proof (convert_range d _ Hrange) as Hrange'.
  pose proof (balanceOf_nonneg lin caller (proj1 Hwfin)) as Hb1.
  pose proof (balanceOf_nonneg lout (this sw) (proj1 Hwfout)) as Hb2.
  apply move_spec in Hm1 as (Hs1 & Ha1 & _); [|done|apply Hrange|done].
  apply move_spec in Hm2 as (Hs2 & Ha2 & _); [|done|apply Hrange'|done].
  apply settle_bounds in Hs1 as [[? ?] ?]; [|done|apply Hrange].
  apply settle_bounds in Hs2 as [[? ?] ?]; [|done|apply Hrange'].
  exists amountIn, debited. unfold token_balance; simpl.
  rewrite lookup_insert_eq. rewrite lookup_insert_ne by done. rewrite lookup_insert_eq.
  split_and!; try done; lia.
Qed.

Lemma swap_amounts_bounded_witness :
  let c := Fixture.chain TransferAvailable in
  let c' := snd (transact (swap Forward Fixture.engine Fixture.alice Fixture.handle
                             (Fixture.input 6000000)) c) in
  ∃ amountIn debited,
    ingest Fixture.engine Fixture.alice Fixture.handle (Fixture.input 6000000) = Ok amountIn
    ∧ token_balance c' 100 Fixture.alice = 5000000 - debited
    ∧ 0 ≤ debited ≤ amountIn
    ∧ debited ≤ 5000000.
Proof.
  intros c c'.
  destruct (swap_amounts_bounded Forward Fixture.engine Fixture.alice Fixture.handle
              (Fixture.input 6000000) c 18600000000 c'
              (Fixture.weth TransferAvailable) (Fixture.wusdt TransferAvailable))
    as (amountIn & debited & H1 & H2 & H3 & H4 & _).
  - reflexivity.
  - reflexivity.
  - simpl. lia.
  - apply fixture_weth_wf.
  - apply fixture_wusdt_wf.
  - simpl. unfold Fixture.alice. lia.
  - vm_compute. reflexivity.
  - exists amountIn, debited.
    split; [exact H1|]. split; [exact H2|]. split; [exact H3|exact H4].
Defined.

(** X6. Converting back and forth in the other order loses the
    remainder: for every 64-bit [x], [forward (reverse x) = x - x mod 3100],
    which is at most [x] and more than [x - 3100]; it is [x] exactly for the
    multiples of 3100. *)
Theorem forward_reverse_loses_remainder x :
  FHE.in_range x →
  forward (reverse x) = x - x mod 3100
  ∧ x - 3100 < forward (reverse x) ≤ x
  ∧ (forward (reverse x) = x ↔ x mod 3100 = 0).
Proof.
  intros [Hlo Hhi]. rewrite FHE_modulus_eq in Hhi.
  pose proof (Z.div_mod x 3100 ltac:(lia)) as Hdm.
  pose proof (Z.mod_pos_bound x 3100 ltac:(lia)) as Hm.
  pose proof (reverse_floor x Hlo) as Hfl.
  assert (Hdiv : reverse x = x / 3100) by reflexivity.
  assert (Hfw : forward (reverse x) = reverse x * 3100).
  { apply forward_exact; [rewrite Hdiv; apply Z.div_pos; lia | lia]. }
  rewrite Hfw, Hdiv. split_and!; lia.
Qed.

Lemma forward_reverse_loses_remainder_witness :
  forward (reverse 6199) = 6199 - 6199 mod 3100
  ∧ 6199 - 3100 < forward (reverse 6199) ≤ 6199
  ∧ (forward (reverse 6199) = 6199 ↔ 6199 mod 3100 = 0).
Proof.
  apply (forward_reverse_loses_remainder 6199). vm_compute.
  split; [discriminate|reflexivity].
Defined.





(** X9. A swap goes through only under an unexpired operator grant from
    the caller to the engine on the asset given: success implies a grant
    whose expiry lies after the block timestamp, and with a valid input but
    no such grant the call reverts with [UnauthorizedSpender] and leaves
    the chain unchanged. *)
Theorem swap_requires_grant d sw caller handle proof c lin :
  tokens c !! asset_in d sw = Some lin →
  (∀ out c',
     transact (swap d sw caller handle proof) c = (Ok out, c') →
     ∃ expiresAt, operators lin !! (caller, this sw) = Some expiresAt
                  ∧ timestamp c < expiresAt)
  ∧ (∀ amountIn,
       ingest sw caller handle proof = Ok amountIn →
       isOperator lin (timestamp c) caller (this sw) = false →
       transact (swap d sw caller handle proof) c
       = (Revert (UnauthorizedSpender caller (this sw)), c)).
Proof.
  intros Hlin. split.
  - intros out c' Hrun. apply swap_ok_shape in Hrun
      as (amountIn & debited & lin0 & lin' & lout & lout'
          & _ & Hlin0 & Hop & _).
    rewrite Hlin in Hlin0. injection Hlin0 as <-.
    unfold isOperator in Hop.
    destruct (operators lin !! (caller, this sw)) as [expiresAt|]; [|discriminate].
    exists expiresAt. split; [done|]. by apply Z.ltb_lt.
  - intros amountIn Hin Hop. by eapply swap_without_grant.
Qed.

Lemma swap_requires_grant_witness :
  (∃ expiresAt, operators (Fixture.weth TransferNothing) !! (Fixture.alice, 300)
                = Some expiresAt ∧ 1000 < expiresAt)
  ∧ transact (swap Forward Fixture.engine 2 Fixture.handle
                {| bound_contract := 300; bound_account := 2;
                   attested := [(Fixture.handle, 1)] |})
      (Fixture.chain TransferNothing)
    = (Revert (UnauthorizedSpender 2 300), Fixture.chain TransferNothing).
Proof.
  split.
  - apply (proj1 (swap_requires_grant Forward Fixture.engine Fixture.alice Fixture.handle
                    (Fixture.input 2000000) (Fixture.chain TransferNothing)
                    (Fixture.weth TransferNothing) eq_refl)
             6200000000
             (snd (transact (swap Forward Fixture.engine Fixture.alice Fixture.handle
                               (Fixture.input 2000000)) (Fixture.chain TransferNothing)))).
    vm_compute. reflexivity.
  - apply (proj2 (swap_requires_grant Forward Fixture.engine 2 Fixture.handle
                    {| bound_contract := 300; bound_account := 2;
                       attested := [(Fixture.handle, 1)] |}
                    (Fixture.chain TransferNothing)
                    (Fixture.weth TransferNothing) eq_refl) 1); reflexivity.
Defined.

(** X21. The engine grants access to nobody but itself.  Whatever a swap
    call does, an account other than the engine that is allowed on a handle
    after the call was allowed on it before; and if nobody but the engine
    was allowed on anything before the call, the same holds after it. *)
Theorem engine_grants_only_itself d sw caller handle proof c :
  let after := snd (transact (swap d sw caller handle proof) c) in
  (∀ h account,
     account ≠ this sw → isAllowed after h account = true → isAllowed c h account = true)
  ∧ (engine_only sw c → engine_only sw after).
Proof.
  intros after.
  assert (Hframe : ∀ h account,
            account ≠ this sw → isAllowed after h account = true →
            isAllowed c h account = true).
  { intros h account Hne. subst after.
    destruct (transact (swap d sw caller handle proof) c) as [[out|e] c'] eqn:Hrun.
    - apply swap_ok_shape in Hrun
        as (amountIn & debited & lin & lin' & lout & lout' & _ & _ & _ & _ & _ & _ & ->).
      unfold isAllowed; simpl. rewrite !listed_other by done.
      intros ->. apply orb_true_r.
    - apply swap_revert_inv in Hrun as [-> _]. done. }
  split; [exact Hframe|].
  intros Honly h account Hallowed.
  destruct (decide (account = this sw)) as [|Hne]; [done|].
  by apply (Honly h), Hframe.
Qed.

(** X22. What a swap returns is fixed by the request, not by what was
    taken in: if the call returns, the returned amount is what the outgoing
    ledger settles, against the engine's balance, for the converted amount
    of the requested [amountIn] (the product [amountIn * 3100] modulo 2^64,
    or the quotient [amountIn / 3100]), whatever amount the transfer-in
    reports as actually debited. *)
Theorem swap_pays_for_the_request d sw caller handle proof c out c' lin lout :
  tokens c !! asset_in d sw = Some lin →
  tokens c !! asset_out d sw = Some lout →
  asset_in d sw ≠ asset_out d sw →
  transact (swap d sw caller handle proof) c = (Ok out, c') →
  ∃ amountIn debited,
    ingest sw caller handle proof = Ok amountIn
    ∧ settle (shortfall lin) (balanceOf lin caller) amountIn = Some debited
    ∧ settle (shortfall lout) (balanceOf lout (this sw)) (convert d amountIn) = Some out
    ∧ convert d amountIn
      = match d with
        | Forward => (amountIn * 3100) mod 2 ^ 64
        | Reverse => amountIn / 3100
        end.
Proof.
  intros Hlin Hlout Hne Hrun.
  apply swap_ok_shape in Hrun
    as (amountIn & debited & lin0 & lin' & lout0 & lout'
        & Hin & Hlin0 & _ & Hm1 & Hlout0 & Hm2 & _).
  rewrite Hlin in Hlin0. injection Hlin0 as <-.
  rewrite lookup_insert_ne, Hlout in Hlout0 by done. injection Hlout0 as <-.
  exists amountIn, debited. split; [done|].
  unfold move in Hm1, Hm2.
  destruct (settle (shortfall lin) _ _) as [t1|] eqn:Hs1; [|discriminate].
  destruct (settle (shortfall lout) _ _) as [t2|] eqn:Hs2; [|discriminate].
  injection Hm1 as <- _. injection Hm2 as <- _.
  split; [done|]. split; [done|]. by destruct d.
Qed.

(** A clamped forward swap, in which nothing is debited and 18600 wUSDT
    are paid for the 6 wETH requested, and a covered reverse swap. *)
Lemma swap_pays_for_the_request_witness :
  (∃ amountIn debited,
     ingest Fixture.engine Fixture.alice Fixture.handle (Fixture.input 6000000) = Ok amountIn
     ∧ settle TransferNothing 5000000 amountIn = Some debited
     ∧ debited = 0
     ∧ settle TransferNothing 62000000000 (convert Forward amountIn) = Some 18600000000)
  ∧ (∃ amountIn debited,
       ingest Fixture.engine Fixture.alice Fixture.handle (Fixture.input 6200000000)
       = Ok amountIn
       ∧ settle TransferNothing 6200000000 amountIn = Some debited
       ∧ settle TransferNothing 20000000 (convert Reverse amountIn) = Some 2000000).
Proof.
  split.
  - destruct (swap_pays_for_the_request Forward Fixture.engine Fixture.alice Fixture.handle
                (Fixture.input 6000000) (Fixture.chain TransferNothing) 18600000000
                (snd (transact (swap Forward Fixture.engine Fixture.alice Fixture.handle
                                  (Fixture.input 6000000)) (Fixture.chain TransferNothing)))
                (Fixture.weth TransferNothing) (Fixture.wusdt TransferNothing))
      as (amountIn & debited & H1 & H2 & H3 & _).
    + reflexivity.
    + reflexivity.
    + simpl. lia.
    + vm_compute. reflexivity.
    + exists amountIn, debited. split; [exact H1|]. split; [exact H2|].
      split; [|exact H3].
      vm_compute in H1. injection H1 as <-. vm_compute in H2. by injection H2 as <-.
  - destruct (swap_pays_for_the_request Reverse Fixture.engine Fixture.alice Fixture.handle
                (Fixture.input 6200000000) (Fixture.chain TransferNothing) 2000000
                (snd (transact (swap Reverse Fixture.engine Fixture.alice Fixture.handle
                                  (Fixture.input 6200000000))
                        (Fixture.chain TransferNothing)))
                (Fixture.wusdt TransferNothing) (Fixture.weth TransferNothing))
      as (amountIn & debited & H1 & H2 & H3 & _).
    + reflexivity.
    + reflexivity.
    + simpl. lia.
    + vm_compute. reflexivity.
    + exists amountIn, debited. split; [exact H1|]. split; [exact H2|exact H3].
Defined.

(** X23. After a successful [swapWethForWusdt] on well-formed ledgers, the
    caller's wETH balance decreases by exactly the amount the transfer-in
    debited, the caller's wUSDT balance increases by exactly the returned
    amount, which is the settlement of [forward] of the requested amount,
    and the supply of each asset is unchanged; when the caller's wETH covers
    the request and the engine's wUSDT covers the product, the debit is the
    request and the credit is [amountIn * 3100], [forward] of the debit. *)
Theorem swap_forward_conservation sw caller handle proof c out c' lw lu :
  tokens c !! wETH sw = Some lw →
  tokens c !! wUSDT sw = Some lu →
  wETH sw ≠ wUSDT sw →
  ledger_wf lw → ledger_wf lu → caller ≠ this sw →
  transact (swapWethForWusdt sw caller handle proof) c = (Ok out, c') →
  ∃ amountIn debited,
    ingest sw caller handle proof = Ok amountIn
    ∧ settle (shortfall lw) (balanceOf lw caller) amountIn = Some debited
    ∧ settle (shortfall lu) (balanceOf lu (this sw)) (forward amountIn) = Some out
    ∧ token_balance c' (wETH sw) caller = token_balance c (wETH sw) caller - debited
    ∧ token_balance c' (wUSDT sw) caller = token_balance c (wUSDT sw) caller + out
    ∧ token_supply c' (wETH sw) = token_supply c (wETH sw)
    ∧ token_supply c' (wUSDT sw) = token_supply c (wUSDT sw)
    ∧ (amountIn ≤ token_balance c (wETH sw) caller →
       amountIn * 3100 ≤ token_balance c (wUSDT sw) (this sw) →
       debited = amountIn ∧ out = amountIn * 3100 ∧ out = forward debited).
Proof.
  intros Hw Hu Hne Hwfw Hwfu Hcaller Hrun.
  assert (Hne' : asset_in Forward sw ≠ asset_out Forward sw) by done.
  destruct (swap_effect Forward sw caller handle proof c lw lu Hw Hu Hne' out c'
              Hwfw Hwfu Hcaller Hrun)
    as (amountIn & debited & Hin & _ & Hs1 & Hs2 & Hb1 & Hb2 & Hsup1 & Hsup2).
  exists amountIn, debited.
  unfold token_balance at 2 4 5 6, token_supply at 2 4. rewrite Hw, Hu.
  simpl in *. split_and!; try done.
  intros Hcov1 Hcov2.
  pose proof (ingest_range _ _ _ _ _ Hin) as [Hlo _].
  rewrite settle_covered in Hs1 by done. injection Hs1 as <-.
  assert (Hfit : amountIn * 3100 < 2 ^ 64).
  { destruct Hwfu as [Hnn Hsup].
    pose proof (total_two (balances lu) (this sw) caller Hnn (not_eq_sym Hcaller)) as Htwo.
    pose proof (balanceOf_nonneg lu caller Hnn).
    unfold supply in Hsup. fold (total (balances lu)) in Hsup.
    fold (balanceOf lu (this sw)) (balanceOf lu caller) in Htwo.
    rewrite FHE_modulus_eq in Hsup. lia. }
  rewrite (forward_exact amountIn Hlo Hfit) in Hs2 |- *.
  rewrite settle_covered in Hs2 by done. by injection Hs2 as <-.
Qed.

Lemma swap_forward_conservation_witness :
  ∃ out c' amountIn debited,
    transact (swapWethForWusdt Fixture.engine Fixture.alice Fixture.handle
                (Fixture.input 2000000)) (Fixture.chain TransferNothing) = (Ok out, c')
    ∧ ingest Fixture.engine Fixture.alice Fixture.handle (Fixture.input 2000000) = Ok amountIn
    ∧ token_balance c' 100 Fixture.alice
      = token_balance (Fixture.chain TransferNothing) 100 Fixture.alice - debited
    ∧ token_balance c' 200 Fixture.alice
      = token_balance (Fixture.chain TransferNothing) 200 Fixture.alice + out
    ∧ token_supply c' 100 = token_supply (Fixture.chain TransferNothing) 100
    ∧ token_supply c' 200 = token_supply (Fixture.chain TransferNothing) 200.
Proof.
  destruct (swap_forward_conservation Fixture.engine Fixture.alice Fixture.handle
              (Fixture.input 2000000) (Fixture.chain TransferNothing)
              6200000000
              (snd (transact (swapWethForWusdt Fixture.engine Fixture.alice
                      Fixture.handle (Fixture.input 2000000))
                      (Fixture.chain TransferNothing)))
              (Fixture.weth TransferNothing) (Fixture.wusdt TransferNothing))
    as (amountIn & debited & H1 & _ & _ & H2 & H3 & H4 & H5 & _).
  - reflexivity.
  - reflexivity.
  - simpl. lia.
  - apply fixture_weth_wf.
  - apply fixture_wusdt_wf.
  - simpl. unfold Fixture.alice. lia.
  - vm_compute. reflexivity.
  - eexists _, _, amountIn, debited. split; [vm_compute; reflexivity|].
    split_and!; assumption.
Defined.

End SwapExtras.


(** * Part IV: further properties of the client *)

Section ClientExtras.

Import DexApp.

(** *** Strings *)

Lemma all_chars_app P x y :
  all_chars P (x +:+ y) = all_chars P x && all_chars P y.
Proof.
  induction x as [|ch x IH]; simpl; [done|].
  by rewrite IH, andb_assoc.
Qed.

Lemma all_chars_substring P n m x :
  all_chars P x = true → all_chars P (String.substring n m x) = true.
Proof.
  revert n m. induction x as [|ch x IH]; intros n m Hx.
  - by destruct n, m.
  - simpl in Hx. apply andb_true_iff in Hx as [Hch Hx].
    destruct n as [|n]; [destruct m as [|m]|]; simpl; [done| |by apply IH].
    rewrite Hch. by apply IH.
Qed.

Lemma all_chars_drop_trailing_zeros P x :
  all_chars P x = true → all_chars P (drop_trailing_zeros x) = true.
Proof.
  induction x as [|ch x IH]; simpl; [done|].
  intros Hx. apply andb_true_iff in Hx as [Hch Hx]. specialize (IH Hx).
  destruct (drop_trailing_zeros x) as [|ch' kept].
  - destruct (Ascii.eqb ch "0"); simpl; [done|by rewrite Hch].
  - simpl in *. by rewrite Hch, IH.
Qed.

Lemma all_chars_zeros n : all_chars is_digit (zeros n) = true.
Proof. induction n; simpl; done. Qed.

Lemma all_chars_weaken (P Q : ascii → bool) x :
  (∀ ch, P ch = true → Q ch = true) → all_chars P x = true → all_chars Q x = true.
Proof.
  intros HPQ. induction x as [|ch x IH]; simpl; [done|].
  intros H. apply andb_true_iff in H as [Hch Hx].
  by rewrite (HPQ _ Hch), IH.
Qed.

Lemma pretty_N_char_digit x : is_digit (pretty_N_char x) = true.
Proof. unfold pretty_N_char. by repeat case_match. Qed.

Lemma pretty_N_go_digits x acc :
  all_chars is_digit acc = true → all_chars is_digit (pretty_N_go x acc) = true.
Proof.
  revert acc. induction (N.lt_wf_0 x) as [x _ IH]; intros acc Hacc.
  assert (x = 0 ∨ 0 < x)%N as [->|Hpos] by lia.
  - by rewrite pretty_N_go_0.
  - rewrite pretty_N_go_step by done. apply IH.
    + by apply N.div_lt.
    + simpl. by rewrite pretty_N_char_digit, Hacc.
Qed.

(** The decimal numeral of a non-negative integer consists of digits. *)
Lemma pretty_nonneg_digits (v : Z) : 0 ≤ v → all_chars is_digit (pretty v) = true.
Proof.
  intros Hv. destruct v as [|p|p]; [done| |lia].
  unfold pretty, pretty_Z, pretty, pretty_positive, pretty, pretty_N.
  case_decide; [done|]. by apply pretty_N_go_digits.
Qed.

(** *** What the balance cards show *)

Lemma formatUnits_chars value decimals :
  all_chars is_decimal_char (formatUnits value decimals) = true.
Proof.
  assert (Hweak : ∀ x, all_chars is_digit x = true → all_chars is_decimal_char x = true).
  { intros x. apply all_chars_weaken. intros ch Hch. unfold is_decimal_char.
    by rewrite Hch. }
  unfold formatUnits.
  set (display := padStart decimals (pretty (Z.abs value))).
  assert (Hdisplay : all_chars is_digit display = true).
  { unfold display, padStart. rewrite all_chars_app, all_chars_zeros. simpl.
    apply pretty_nonneg_digits. lia. }
  rewrite !all_chars_app. apply andb_true_iff. split; [|apply andb_true_iff; split].
  - by destruct (value <? 0).
  - destruct (String.eqb _ ""); [done|]. by apply Hweak, all_chars_substring.
  - destruct (String.eqb _ ""); [done|]. rewrite all_chars_app. simpl.
    by apply Hweak, all_chars_drop_trailing_zeros, all_chars_substring.
Qed.

(** X10. A formatted amount consists of decimal digits, at most one
    leading "-" and "." only, so it is never the mask: a balance card shows
    "***" exactly when the decrypted balance is [null]. *)
Theorem mask_means_not_decrypted (value : option Z) :
  (∀ v, value = Some v →
        all_chars is_decimal_char (formatClear value) = true
        ∧ formatClear value = formatUnits v DECIMALS)
  ∧ (formatClear value = "***" ↔ value = None).
Proof.
  split.
  - intros v ->. simpl. split; [apply formatUnits_chars|done].
  - split; [|by intros ->].
    destruct value as [v|]; [|done]. simpl. intros Hmask.
    pose proof (formatUnits_chars v DECIMALS) as Hchars.
    rewrite Hmask in Hchars. discriminate.
Qed.

Lemma mask_means_not_decrypted_witness :
  (all_chars is_decimal_char (formatClear (Some 1234567)) = true
   ∧ formatClear (Some 1234567) = formatUnits 1234567 DECIMALS)
  ∧ formatClear (Some 1234567) = "1.234567".
Proof.
  split; [|vm_compute; reflexivity].
  apply (proj1 (mask_means_not_decrypted (Some 1234567)) 1234567). reflexivity.
Defined.

Lemma renderEncrypted_abbreviates h :
  (negb (truthy (Some h)) || strict_eq (Some h) ZERO_HANDLE) = false →
  renderEncrypted (Some h) = slice_first 10 h +:+ "..." +:+ slice_last 8 h
  ∧ renderEncrypted (Some h) ≠ "Uninitialized".
Proof.
  intros Hguard. unfold renderEncrypted. rewrite Hguard. split; [done|].
  intros Heq.
  assert (Hdots : all_chars (λ ch, negb (Ascii.eqb ch ".")) "Uninitialized" = true)
    by reflexivity.
  rewrite <- Heq, !all_chars_app in Hdots. simpl in Hdots.
  by rewrite andb_false_r in Hdots.
Qed.

(** X11. A balance card reads "Uninitialized" exactly when the stored
    handle is missing, empty or the zero handle, which in a ready session
    is exactly when [decryptBalance] starts no handshake; any other handle
    is shown as its first ten characters, "..." and its last eight, and
    then [decryptBalance] parks one task awaiting the signer. *)
Theorem uninitialized_iff_no_handshake s token :
  session_ready s = true →
  let handle := encrypted_of (encryptedBalances (view s)) token in
  (renderEncrypted handle = "Uninitialized"
   ↔ truthy handle = false ∨ handle = Some ZERO_HANDLE)
  ∧ (renderEncrypted handle = "Uninitialized"
     ↔ tasks (decryptBalance token s) = tasks s)
  ∧ (renderEncrypted handle ≠ "Uninitialized" →
     ∃ h f, handle = Some h
            ∧ renderEncrypted handle = slice_first 10 h +:+ "..." +:+ slice_last 8 h
            ∧ tasks (decryptBalance token s) = tasks s ++ [DecryptAwaitSigner f]
            ∧ fr_token f = token ∧ fr_handle f = h).
Proof.
  intros Hready handle.
  unfold session_ready in Hready.
  apply andb_true_iff in Hready as [Hready Hinst].
  apply andb_true_iff in Hready as [Haddr Htyped].
  apply bool_decide_eq_true_1 in Htyped as Htyped'. destruct Htyped' as [typed Htyped'].
  destruct (address (hooks s)) as [a|] eqn:Ha; [|done].
  assert (Hrun : decryptBalance token s =
                 if negb (truthy handle) || strict_eq handle ZERO_HANDLE
                 then setStatusMessage (Some "Encrypted balance not available yet.") s
                 else match handle with
                      | Some h => park (DecryptAwaitSigner
                                          {| fr_token := token; fr_handle := h;
                                             fr_address := a; fr_typed := typed |}) s
                      | None => s
                      end).
  { unfold decryptBalance. rewrite Ha, Haddr, Htyped, Hinst, Htyped'. done. }
  destruct (negb (truthy handle) || strict_eq handle ZERO_HANDLE) eqn:Hguard.
  - assert (Hr : renderEncrypted handle = "Uninitialized").
    { unfold renderEncrypted. by rewrite Hguard. }
    rewrite Hrun, Hr. split_and!; try done.
    split; [intros _|done].
    apply orb_true_iff in Hguard as [Hg|Hg].
    + left. by apply negb_true_iff.
    + right. destruct handle as [h|]; [|done]. simpl in Hg.
      apply String.eqb_eq in Hg. by subst.
  - destruct handle as [h|] eqn:Hh; [|done].
    destruct (renderEncrypted_abbreviates h Hguard) as [Habbr Hne].
    apply orb_false_iff in Hguard as [Hg1 Hg2]. apply negb_false_iff in Hg1.
    rewrite Hrun. split_and!.
    + split; [done|]. intros [Hf|Hz]; [congruence|].
      injection Hz as ->. unfold strict_eq in Hg2. by rewrite String.eqb_refl in Hg2.
    + split; [done|]. simpl. intros Hlen.
      apply (f_equal length) in Hlen. rewrite length_app in Hlen. simpl in Hlen. lia.
    + intros _. by eexists h, _.
Qed.

Lemma uninitialized_iff_no_handshake_witness :
  renderEncrypted (encrypted_of (encryptedBalances (view Session.uninitialised)) weth)
  = "Uninitialized"
  ∧ tasks (decryptBalance weth Session.uninitialised) = tasks Session.uninitialised
  ∧ renderEncrypted (encrypted_of (encryptedBalances (view Session.uninitialised)) wusdt)
    = "0xbb22...0xbb22".
Proof.
  destruct (uninitialized_iff_no_handshake Session.uninitialised weth)
    as (H1 & H2 & _); [reflexivity|].
  assert (Hu : renderEncrypted
                 (encrypted_of (encryptedBalances (view Session.uninitialised)) weth)
               = "Uninitialized").
  { apply (proj2 H1). right. reflexivity. }
  split; [exact Hu|]. split; [exact (proj1 H2 Hu)|reflexivity].
Defined.

(** *** The decrypt handshake, end to end *)

Lemma lookup_parked (l : list Task) t : (l ++ [t]) !! length l = Some t.
Proof. by apply list_lookup_middle. Qed.

Lemma insert_parked (l : list Task) t t' : <[length l := t']> (l ++ [t]) = l ++ [t'].
Proof. induction l as [|x l IH]; simpl; [done|]. by rewrite IH. Qed.

(** [decryptBalance] on a ready session and a usable handle parks the
    handshake. *)
Lemma decryptBalance_starts s token a typed h :
  address (hooks s) = Some a → a ≠ "" →
  typedAddresses (hooks s) = Some typed →
  instance (hooks s) = true →
  encrypted_of (encryptedBalances (view s)) token = Some h →
  h ≠ "" → h ≠ ZERO_HANDLE →
  decryptBalance token s
  = park (DecryptAwaitSigner
            {| fr_token := token; fr_handle := h; fr_address := a; fr_typed := typed |}) s.
Proof.
  intros Ha Hne Htyped Hinst Hh Hh0 Hhz. unfold decryptBalance.
  rewrite Ha, Htyped, Hinst, Hh. simpl.
  apply String.eqb_neq in Hne, Hh0, Hhz. by rewrite Hne, Hh0, Hhz.
Qed.

(** X12. A decrypt handshake that runs to its end on a ready session:
    the signer resolves, the wallet signs, the service answers with a value
    [n] (a bigint or something [BigInt] converts).  Then the balance of the
    token, and of that token only, reads [n]; the busy flag and the status
    message are cleared; the task is finished; and exactly four calls were
    made, in this order: a keypair generation, [createEIP712], the
    signature request over that same request, and one [userDecrypt] that
    names the stored handle with the token's ledger address, the account,
    the signature without its first "0x", and the public key, contract
    list, start time and duration that were signed. *)
Theorem decrypt_handshake_reveals s token a typed h signer signature clearValue n :
  address (hooks s) = Some a → a ≠ "" →
  typedAddresses (hooks s) = Some typed →
  instance (hooks s) = true →
  encrypted_of (encryptedBalances (view s)) token = Some h →
  h ≠ "" → h ≠ ZERO_HANDLE →
  clearValue = IsBigint n ∨ clearValue = Convertible n →
  let i := length (tasks s) in
  let keypair := fst (fresh_keypair s) in
  let request := authorization keypair (contract_of typed token) (clock s) in
  let s' := run (decryptBalance token s)
              [Settle i (SignerIs (Some signer));
               Settle i (Signature signature);
               Settle i (DecryptResult clearValue)] in
  decrypted_of (decryptedBalances (view s')) token = Some n
  ∧ (∀ other, other ≠ token →
       decrypted_of (decryptedBalances (view s')) other
       = decrypted_of (decryptedBalances (view s)) other)
  ∧ encryptedBalances (view s') = encryptedBalances (view s)
  ∧ isDecrypting (view s') = None
  ∧ statusMessage (view s') = None
  ∧ tasks s' = tasks s ++ [Finished]
  ∧ calls s'
    = calls s ++
      [GenerateKeypair; CreateEIP712 request; SignTypedData request;
       UserDecrypt [(h, contract_of typed token)]
         (privateKey keypair) (publicKey keypair) (replace_0x signature)
         (eip_contractAddresses request) a
         (eip_startTimeStamp request) (eip_durationDays request)].
Proof.
  intros Ha Hne Htyped Hinst Hh Hh0 Hhz Hclear i keypair request s'.
  subst s'. rewrite (decryptBalance_starts s token a typed h) by done.
  destruct s as [hk vw clk ks tks cls]. simpl in *. subst i.
  unfold run. simpl.
  repeat (rewrite ?insert_parked, ?lookup_parked; simpl).
  destruct Hclear as [-> | ->]; simpl;
    repeat (rewrite ?insert_parked, ?lookup_parked; simpl);
    rewrite <- !app_assoc; simpl;
    (split_and!; [by destruct token | by intros [] ?; destruct token
                 | done | done | done | done | done]).
Qed.

Lemma decrypt_handshake_reveals_witness :
  let s' := run (decryptBalance wusdt Session.loaded)
              [Settle 1 (SignerIs (Some "wallet"));
               Settle 1 (Signature "0x5160");
               Settle 1 (DecryptResult (Convertible 6200000000))] in
  decrypted_of (decryptedBalances (view s')) wusdt = Some 6200000000
  ∧ decrypted_of (decryptedBalances (view s')) weth = None
  ∧ isDecrypting (view s') = None
  ∧ rendered_clear s' wusdt = "6200".
Proof.
  intros s'.
  destruct (decrypt_handshake_reveals Session.loaded wusdt Session.account
              Session.contracts "0xbb22" "wallet" "0x5160"
              (Convertible 6200000000) 6200000000)
    as (H1 & H2 & _ & H3 & _); try reflexivity; try discriminate.
  - by right.
  - split; [exact H1|]. split; [exact (H2 weth ltac:(discriminate))|].
    split; [exact H3|]. vm_compute. reflexivity.
Defined.

(** X13. However a decrypt handshake fails (no signer, the wallet
    refuses to sign, the decryption service rejects, or its answer cannot
    be turned into a bigint), the status message is set (to "Signer not
    available.", to the error's own message, or to "Failed to decrypt
    balance" for a thrown non-error) and the footer displays it unless it
    is the empty string; the task ends, no further call is made, and the
    encrypted and decrypted balances stay as they were.  Except in the
    no-signer case the busy flag is cleared. *)
Theorem decrypt_handshake_fails_safely s i t r message :
  tasks s !! i = Some t →
  handshake_failure t r = Some message →
  let s' := step s (Settle i r) in
  statusMessage (view s') = Some message
  ∧ status_banner s' = (if String.eqb message "" then None else Some message)
  ∧ decryptedBalances (view s') = decryptedBalances (view s)
  ∧ encryptedBalances (view s') = encryptedBalances (view s)
  ∧ calls s' = calls s
  ∧ keys s' = keys s
  ∧ tasks s' = <[i := Finished]> (tasks s)
  ∧ isDecrypting (view s')
    = match t with
      | DecryptAwaitSigner _ => isDecrypting (view s)
      | _ => None
      end.
Proof.
  intros Hi Hfail s'. subst s'. simpl. rewrite Hi.
  assert (Hbanner : ∀ s0 : State,
            statusMessage (view s0) = Some message →
            status_banner s0 = (if String.eqb message "" then None else Some message)).
  { intros s0 Hs0. unfold status_banner. rewrite Hs0. simpl.
    by destruct (String.eqb message ""). }
  destruct t as [f|f h|f h| |]; simpl in Hfail; try discriminate.
  - destruct r as [[sg|]| | | |]; try discriminate.
    injection Hfail as Hm. split_and!; try done; [by rewrite <- Hm|].
    apply Hbanner. simpl. by rewrite Hm.
  - destruct r as [| | | |e]; try discriminate.
    injection Hfail as Hm. split_and!; try done; [by rewrite <- Hm|].
    apply Hbanner. simpl. by rewrite Hm.
  - destruct r as [| |[n|n|e]| |e]; try discriminate;
      injection Hfail as Hm; (split_and!; try done; [by rewrite <- Hm|]);
      apply Hbanner; simpl; by rewrite Hm.
Qed.

Lemma decrypt_handshake_fails_safely_witness :
  let s := run Session.revealed
             [ClickDecrypt wusdt; Settle 2 (SignerIs (Some "wallet"))] in
  let s' := step s (Settle 2 (Rejected (ErrorObject "User rejected the request."))) in
  statusMessage (view s') = Some "User rejected the request."
  ∧ status_banner s' = Some "User rejected the request."
  ∧ decryptedBalances (view s') = decryptedBalances (view s)
  ∧ decrypted_of (decryptedBalances (view s')) weth = Some 5000000
  ∧ calls s' = calls s
  ∧ isDecrypting (view s') = None.
Proof.
  intros s s'.
  destruct (decrypt_handshake_fails_safely s 2%nat
              (DecryptAwaitSignature
                 {| fr_token := wusdt; fr_handle := "0xbb22";
                    fr_address := Session.account; fr_typed := Session.contracts |}
                 {| hs_keypair := {| publicKey := "pk1"; privateKey := "sk1" |};
                    hs_contractAddress := "0x05D7";
                    hs_startTimeStamp := "1700000000"; hs_durationDays := "10" |})
              (Rejected (ErrorObject "User rejected the request."))
              "User rejected the request.")
    as (H1 & Hb & H2 & _ & H3 & _ & _ & H4).
  - vm_compute. reflexivity.
  - reflexivity.
  - split; [exact H1|]. split; [exact Hb|]. split; [exact H2|].
    split; [vm_compute; reflexivity|]. split; [exact H3|exact H4].
Defined.

(** *** Refresh *)

(** X14. A refresh that cannot run or that fails changes no balance.
    Without an account or without valid contract addresses
    [refreshOnChainData] returns at once and the state is untouched.  When
    its reads are rejected, the status message is the error's message (or
    "Failed to refresh on-chain data"), [isRefreshing] is cleared, and the
    encrypted handles, the operator flags and the decrypted balances are
    kept: what had been revealed stays on display. *)
Theorem refresh_failure_keeps_balances s :
  (truthy (address (hooks s)) = false ∨ typedAddresses (hooks s) = None →
   refreshOnChainData s = s)
  ∧ (∀ i e,
       tasks s !! i = Some RefreshAwaitReads →
       let s' := step s (Settle i (Rejected e)) in
       statusMessage (view s') = Some (message_of e "Failed to refresh on-chain data")
       ∧ isRefreshing (view s') = false
       ∧ encryptedBalances (view s') = encryptedBalances (view s)
       ∧ operatorStatus (view s') = operatorStatus (view s)
       ∧ decryptedBalances (view s') = decryptedBalances (view s)
       ∧ (∀ token, rendered_clear s' token = rendered_clear s token)
       ∧ tasks s' = <[i := Finished]> (tasks s)).
Proof.
  split.
  - intros Hmissing. unfold refreshOnChainData.
    destruct (address (hooks s)) as [a|]; [|done].
    destruct (typedAddresses (hooks s)) as [typed|]; [|done].
    destruct Hmissing as [Ha|?]; [|done]. by rewrite Ha.
  - intros i e Hi s'. subst s'. simpl. rewrite Hi. simpl. by split_and!.
Qed.

Lemma refresh_failure_keeps_balances_witness :
  let s := step Session.revealed CallRefresh in
  let s' := step s (Settle 2 (Rejected OtherValue)) in
  statusMessage (view s') = Some "Failed to refresh on-chain data"
  ∧ isRefreshing (view s') = false
  ∧ rendered_clear s' weth = "5".
Proof.
  intros s s'.
  destruct (proj2 (refresh_failure_keeps_balances s) 2%nat OtherValue)
    as (H1 & H2 & _ & _ & _ & H3 & _).
  - vm_compute. reflexivity.
  - split; [exact H1|]. split; [exact H2|].
    etrans; [exact (H3 weth)|]. vm_compute. reflexivity.
Defined.

Lemma count_refreshes_cons t l :
  count_refreshes (t :: l)
  = ((if is_refresh t then 1 else 0) + count_refreshes l)%nat.
Proof.
  unfold count_refreshes. rewrite filter_cons.
  destruct (is_refresh t); case_decide; simpl; congruence.
Qed.

Lemma count_refreshes_snoc l t :
  count_refreshes (l ++ [t])
  = (count_refreshes l + if is_refresh t then 1 else 0)%nat.
Proof.
  induction l as [|x l IH].
  - rewrite app_nil_l, count_refreshes_cons. unfold count_refreshes. simpl. lia.
  - rewrite <- app_comm_cons, !count_refreshes_cons, IH. lia.
Qed.

Lemma count_refreshes_insert l i t0 t :
  l !! i = Some t0 →
  (count_refreshes (<[i := t]> l) + (if is_refresh t0 then 1 else 0)
   = count_refreshes l + (if is_refresh t then 1 else 0))%nat.
Proof.
  revert i. induction l as [|x l IH]; intros i Hi; [done|].
  destruct i as [|i]; simpl in *.
  - injection Hi as ->. rewrite !count_refreshes_cons. lia.
  - rewrite !count_refreshes_cons. specialize (IH i Hi). lia.
Qed.

(** A step that swaps a task for another that is no refresh either, or
    parks one, and leaves [isRefreshing] alone, keeps the bookkeeping. *)
Lemma refresh_consistent_frame s s' :
  isRefreshing (view s') = isRefreshing (view s) →
  count_refreshes (tasks s') = count_refreshes (tasks s) →
  refresh_consistent s → refresh_consistent s'.
Proof.
  unfold refresh_consistent, pending_refreshes. by intros -> ->.
Qed.

Lemma refresh_consistent_replace s s' i t0 t :
  tasks s !! i = Some t0 → is_refresh t0 = false →
  tasks s' = <[i := t]> (tasks s) →
  isRefreshing (view s') = isRefreshing (view s) →
  is_refresh t = false →
  refresh_consistent s → refresh_consistent s'.
Proof.
  intros Hi H0 Htasks Hview Ht. apply refresh_consistent_frame; [done|].
  rewrite Htasks. pose proof (count_refreshes_insert _ i t0 t Hi) as Hc.
  rewrite H0, Ht in Hc. lia.
Qed.

Lemma refreshOnChainData_consistent s :
  isRefreshing (view s) = false →
  refresh_consistent s → refresh_consistent (refreshOnChainData s).
Proof.
  intros Hidle Hs. unfold refreshOnChainData.
  destruct (address (hooks s)) as [a|]; [|done].
  destruct (typedAddresses (hooks s)) as [typed|]; [|done].
  destruct (negb (truthy (Some a))); [done|].
  unfold refresh_consistent, pending_refreshes in *. simpl.
  rewrite count_refreshes_snoc. rewrite Hidle in Hs. simpl. lia.
Qed.

Lemma decryptBalance_consistent token s :
  refresh_consistent s → refresh_consistent (decryptBalance token s).
Proof.
  intros Hs. unfold decryptBalance.
  destruct (_ || _ || _); [by apply (refresh_consistent_frame s)|].
  destruct (_ || _); [by apply (refresh_consistent_frame s)|].
  destruct (address (hooks s)); [|done].
  destruct (typedAddresses (hooks s)); [|done].
  destruct (encrypted_of _ _); [|done].
  apply (refresh_consistent_frame s); [done| |done].
  simpl. rewrite count_refreshes_snoc. simpl. lia.
Qed.

Lemma step_refresh_consistent s e :
  (e = CallRefresh → isRefreshing (view s) = false) →
  refresh_consistent s → refresh_consistent (step s e).
Proof.
  intros Hquiet Hs. destruct e as [token| | |i r|ms]; simpl.
  - destruct (decrypt_disabled s token); [done|]. by apply decryptBalance_consistent.
  - destruct (refresh_disabled s) eqn:Hdis; [done|].
    apply refreshOnChainData_consistent; [|done].
    unfold refresh_disabled in Hdis. by apply orb_false_iff in Hdis as [_ ?].
  - apply refreshOnChainData_consistent; auto.
  - destruct (tasks s !! i) as [[f|f h|f h| |]|] eqn:Hi; try done.
    + destruct r as [[sg|]| | | |]; try done;
        by eapply (refresh_consistent_replace s _ i).
    + destruct r as [| | | |e]; try done;
        by eapply (refresh_consistent_replace s _ i).
    + destruct r as [| |[n|n|e]| |e]; try done;
        by eapply (refresh_consistent_replace s _ i).
    + assert (Hdone : ∀ s',
                tasks s' = <[i := Finished]> (tasks s) →
                isRefreshing (view s') = false → refresh_consistent s').
      { intros s' Htasks Hview.
        unfold refresh_consistent, pending_refreshes in *.
        rewrite Htasks, Hview.
        pose proof (count_refreshes_insert _ i _ Finished Hi) as Hc. simpl in Hc.
        destruct (isRefreshing (view s)); lia. }
      destruct r; try done; by apply Hdone.
  - by apply (refresh_consistent_frame s).
Qed.

(** X15. The Refresh button keeps refreshes single-flight.  As long as
    [refreshOnChainData] is not entered from elsewhere (the mount effect,
    the end of a transaction) while a refresh is outstanding, [isRefreshing]
    is true exactly while one is, never more than one refresh is
    outstanding, and a click on the button while one is changes nothing. *)
Theorem refresh_single_flight trace s :
  refresh_consistent s →
  refresh_not_reentered s trace →
  refresh_consistent (run s trace)
  ∧ (pending_refreshes (run s trace) ≤ 1)%nat
  ∧ (pending_refreshes (run s trace) = 1%nat ↔ isRefreshing (view (run s trace)) = true)
  ∧ (pending_refreshes (run s trace) = 1%nat →
     step (run s trace) ClickRefresh = run s trace).
Proof.
  intros Hs Htrace.
  assert (Hfinal : refresh_consistent (run s trace)).
  { revert s Hs Htrace. induction trace as [|e trace IH]; intros s Hs Htrace; [done|].
    destruct Htrace as [Hquiet Hrest]. apply IH; [|done].
    by apply step_refresh_consistent. }
  split; [done|]. unfold refresh_consistent in Hfinal.
  destruct (isRefreshing (view (run s trace))) eqn:Hflag.
  - split; [lia|]. split; [done|]. intros _. simpl.
    unfold refresh_disabled. by rewrite Hflag, orb_true_r.
  - split; [lia|]. split; [split; [lia|done]|lia].
Qed.

Lemma refresh_single_flight_witness :
  let trace := [CallRefresh; ClickRefresh; ClickDecrypt weth; ClickRefresh;
                Settle 0 (ReadResults "0xaa11" "0xbb22" true true); ClickRefresh] in
  refresh_consistent (run (Session.mounted 0) trace)
  ∧ (pending_refreshes (run (Session.mounted 0) trace) ≤ 1)%nat.
Proof.
  intros trace.
  destruct (refresh_single_flight trace (Session.mounted 0)) as (H1 & H2 & _).
  - reflexivity.
  - vm_compute. repeat split; discriminate.
  - split; assumption.
Defined.

(** *** The swap preview *)

(** X16. The estimate shown under the swap form agrees with the
    contract's conversion as long as the product fits 64 bits.  For a typed
    amount that parses to a 64-bit [value], the wUSDT-to-wETH estimate is
    the formatted [FHE.div(value, 3100)]; the wETH-to-wUSDT estimate is the
    formatted [FHE.mul(value, 3100)] when [value * 3100 < 2^64], and
    otherwise shows the unbounded product, which is larger than what the
    contract computes.  An empty field or an amount that does not parse
    gives no estimate. *)
Theorem preview_agrees_with_contract parseUnits swapAmount value :
  swapAmount ≠ "" →
  parseUnits swapAmount DECIMALS = Some value →
  FHE.in_range value →
  buildSwapPreview parseUnits swapAmount wusdtToWeth
  = Some (formatUnits (reverse value) DECIMALS)
  ∧ (value * 3100 < 2 ^ 64 →
     buildSwapPreview parseUnits swapAmount wethToWusdt
     = Some (formatUnits (forward value) DECIMALS))
  ∧ (2 ^ 64 ≤ value * 3100 →
     buildSwapPreview parseUnits swapAmount wethToWusdt
     = Some (formatUnits (value * 3100) DECIMALS)
     ∧ forward value < value * 3100)
  ∧ (∀ direction, buildSwapPreview parseUnits "" direction = None)
  ∧ (∀ other direction,
       parseUnits other DECIMALS = None →
       buildSwapPreview parseUnits other direction = None).
Proof.
  intros Hne Hparse [Hlo Hhi]. unfold buildSwapPreview.
  apply String.eqb_neq in Hne. simpl. rewrite Hne, Hparse. simpl.
  split_and!.
  - unfold reverse, FHE.div, RATE, OpaqueSwap.WETH_TO_WUSDT_RATE.
    by rewrite Z.quot_div_nonneg by lia.
  - intros Hfit. by rewrite forward_exact.
  - intros Hwrap. split; [done|].
    pose proof (FHE_mul_range value OpaqueSwap.WETH_TO_WUSDT_RATE) as [_ Hlt].
    fold (forward value) in Hlt. rewrite FHE_modulus_eq in Hlt. lia.
  - done.
  - intros other direction Hfail. destruct (negb _); [done|]. by rewrite Hfail.
Qed.

Lemma preview_agrees_with_contract_witness :
  let parseUnits := λ (x : string) (_ : nat),
                      if String.eqb x "2" then Some 2000000 else None in
  buildSwapPreview parseUnits "2" wusdtToWeth = Some "0.000645"
  ∧ buildSwapPreview parseUnits "2" wethToWusdt = Some "6200"
  ∧ buildSwapPreview parseUnits "two" wethToWusdt = None.
Proof.
  intros parseUnits.
  destruct (preview_agrees_with_contract parseUnits "2" 2000000)
    as (H1 & H2 & _ & _ & H3).
  - discriminate.
  - reflexivity.
  - vm_compute. split; [discriminate|reflexivity].
  - split; [etrans; [exact H1|vm_compute; reflexivity]|].
    split; [etrans; [apply H2; vm_compute; reflexivity|vm_compute; reflexivity]|].
    apply H3. reflexivity.
Defined.

End ClientExtras.

(** * Part V: properties of the client's transactions *)

Section ActionFacts.

Import DexApp DexActions.

Variable parseUnits : string → nat → option Z.

Lemma lookup_parked_action (l : list ActionTask) t : (l ++ [t]) !! length l = Some t.
Proof. by apply list_lookup_middle. Qed.

Lemma insert_parked_action (l : list ActionTask) t t' :
  <[length l := t']> (l ++ [t]) = l ++ [t'].
Proof. induction l as [|x l IH]; simpl; [done|]. by rewrite IH. Qed.

Lemma resume_positive i t r s :
  Forall positive_amount (requests s) →
  Forall positive_amount (requests (resume parseUnits i t r s)).
Proof.
  intros Hs.
  destruct t as [a typed text d|typed d| | |a typed token raw| | |];
    destruct r as [[sg|]|h p| | |e]; simpl; try done.
  - destruct (parseUnits _ _) as [amount|]; [|done].
    destruct (Z.leb_spec amount 0); [done|]. simpl.
    apply Forall_app. split; [done|]. apply Forall_singleton. simpl. lia.
  - apply Forall_app. split; [done|]. apply Forall_singleton. by destruct d.
  - destruct (parseUnits _ _) as [amount|]; [|done].
    destruct (Z.leb_spec amount 0); [done|]. simpl.
    apply Forall_app. split; [done|]. apply Forall_singleton. simpl. lia.
Qed.

Lemma act_positive s e :
  Forall positive_amount (requests s) →
  Forall positive_amount (requests (act parseUnits s e)).
Proof.
  intros Hs. destruct e as [|token|text|d|token text|i r|e]; simpl; try done.
  - destruct (swap_disabled s); [done|]. unfold executeSwap.
    repeat (case_match; try done).
  - destruct (mint_disabled s); [done|]. unfold mintTokens.
    repeat (case_match; try done).
  - destruct (actions s !! i); [|done]. by apply resume_positive.
Qed.

(** X17. The client never asks for a non-positive amount: whatever the
    user types and clicks and however the promises settle, every encryption
    request of [executeSwap] and every mint of [mintTokens] names an amount
    greater than zero. *)
Theorem requests_name_positive_amounts b trace :
  Forall positive_amount (requests (play parseUnits (opened b) trace))
  ∧ ∀ contract user amount,
      EncryptInput contract user amount ∈ requests (play parseUnits (opened b) trace)
      ∨ SendMint contract user amount ∈ requests (play parseUnits (opened b) trace) →
      0 < amount.
Proof.
  assert (Hall : ∀ s, Forall positive_amount (requests s) →
                      Forall positive_amount (requests (play parseUnits s trace))).
  { induction trace as [|e trace IH]; intros s Hs; [done|].
    simpl. apply IH. by apply act_positive. }
  specialize (Hall (opened b) (Forall_nil_2 _)). split; [done|].
  intros contract user amount [Hin|Hin];
    by apply (proj1 (Forall_forall _ _) Hall) in Hin.
Qed.

Lemma executeSwap_starts s a typed :
  address (hooks (base s)) = Some a → a ≠ "" →
  typedAddresses (hooks (base s)) = Some typed →
  instance (hooks (base s)) = true →
  executeSwap s
  = park_action (SwapAwaitSigner a typed (swapAmount (form s)) (swapDirection (form s))) s.
Proof.
  intros Ha Hne Htyped Hinst. unfold executeSwap.
  rewrite Ha, Htyped, Hinst. simpl.
  apply String.eqb_neq in Hne. by rewrite Hne.
Qed.

Lemma mintTokens_starts token s a typed :
  address (hooks (base s)) = Some a → a ≠ "" →
  typedAddresses (hooks (base s)) = Some typed →
  mintTokens token s
  = park_action
      (MintAwaitSigner a typed token
         (match token with weth => mint_weth (form s) | wusdt => mint_wusdt (form s) end)) s.
Proof.
  intros Ha Hne Htyped. unfold mintTokens.
  rewrite Ha, Htyped. simpl.
  apply String.eqb_neq in Hne. by rewrite Hne.
Qed.

(** What [refreshOnChainData] does on a session with an account and
    valid addresses. *)
Lemma refresh_starts b a typed :
  address (hooks b) = Some a → a ≠ "" →
  typedAddresses (hooks b) = Some typed →
  statusMessage (view (refreshOnChainData b)) = None
  ∧ isRefreshing (view (refreshOnChainData b)) = true
  ∧ tasks (refreshOnChainData b) = tasks b ++ [RefreshAwaitReads]
  ∧ decryptedBalances (view (refreshOnChainData b)) = decryptedBalances (view b)
  ∧ calls (refreshOnChainData b)
    = calls b ++
      [ReadContract (addr_weth typed) "confidentialBalanceOf" [a];
       ReadContract (addr_wusdt typed) "confidentialBalanceOf" [a];
       ReadContract (addr_weth typed) "isOperator" [a; addr_swap typed];
       ReadContract (addr_wusdt typed) "isOperator" [a; addr_swap typed]].
Proof.
  intros Ha Hne Htyped. unfold refreshOnChainData. rewrite Ha, Htyped. simpl.
  apply String.eqb_neq in Hne. rewrite Hne. simpl.
  rewrite <- !app_assoc. by split_and!.
Qed.

(** X18. A swap that is confirmed.  On a ready session whose amount
    field parses to a positive [amount], [executeSwap] followed by the
    signer, the encryption, the submission and the confirmation sends
    exactly two requests: the encryption of [amount] for the pair (swap
    contract, account), then the call of the swap function of the direction
    that was selected when the button was clicked (a later toggle does not
    redirect it).  It ends by entering [refreshOnChainData], which at once
    replaces the "Swap confirmed" message by none and issues the four
    reads; when those succeed both decrypted balances are masked again. *)
Theorem confirmed_swap_refreshes s a typed amount signer toggled handle inputProof
    wethBalance wusdtBalance wethOperator wusdtOperator :
  address (hooks (base s)) = Some a → a ≠ "" →
  typedAddresses (hooks (base s)) = Some typed →
  instance (hooks (base s)) = true →
  parseUnits (or_zero (swapAmount (form s))) DECIMALS = Some amount →
  0 < amount →
  let i := length (actions s) in
  let s' := play parseUnits (executeSwap s)
              [SettleAction i (SignerResolved (Some signer));
               ToggleDirection toggled;
               SettleAction i (Encrypted handle inputProof);
               SettleAction i Submitted;
               SettleAction i Confirmed] in
  requests s'
  = requests s ++
    [EncryptInput (addr_swap typed) a amount;
     match swapDirection (form s) with
     | wethToWusdt => SendSwapWethForWusdt (addr_swap typed) handle inputProof
     | wusdtToWeth => SendSwapWusdtForWeth (addr_swap typed) handle inputProof
     end]
  ∧ actions s' = actions s ++ [ActionFinished]
  ∧ statusMessage (view (base s')) = None
  ∧ isRefreshing (view (base s')) = true
  ∧ tasks (base s') = tasks (base s) ++ [RefreshAwaitReads]
  ∧ decryptedBalances
      (view (step (base s')
               (Settle (length (tasks (base s)))
                  (ReadResults wethBalance wusdtBalance wethOperator wusdtOperator))))
    = {| dec_weth := None; dec_wusdt := None |}.
Proof.
  intros Ha Hne Htyped Hinst Hparse Hpos i s'.
  subst s'. rewrite (executeSwap_starts s a typed) by done. subst i.
  apply Z.leb_gt in Hpos.
  unfold play. simpl. rewrite lookup_parked_action. simpl.
  rewrite Hparse, Hpos. simpl.
  repeat (rewrite ?insert_parked_action, ?lookup_parked_action; simpl).
  rewrite <- !app_assoc. simpl.
  set (b := setStatusMessage (Some "Swap confirmed. Refreshing balances...") _).
  assert (Hb : hooks b = hooks (base s) ∧ tasks b = tasks (base s)) by done.
  destruct Hb as [Hhooks Htasks].
  destruct (refresh_starts b a typed) as (H1 & H2 & H3 & _); [by rewrite ?Hhooks..|].
  rewrite Htasks in H3. split_and!; try done.
  rewrite H3, list_lookup_middle by done. done.
Qed.

(** X19. A mint that is confirmed.  With an account and valid
    addresses, and a mint field that parses to a positive [amount],
    [mintTokens(token)] followed by the signer, the submission and the
    confirmation sends exactly one request, the mint of [amount] to the
    user's own account on the ledger of that token, taken from the field of
    that token as it was at the click; it ends by entering
    [refreshOnChainData], which clears the "Mint confirmed." message and
    issues the reads. *)
Theorem confirmed_mint_refreshes token s a typed amount signer retyped :
  address (hooks (base s)) = Some a → a ≠ "" →
  typedAddresses (hooks (base s)) = Some typed →
  parseUnits
    (or_zero (match token with weth => mint_weth (form s) | wusdt => mint_wusdt (form s) end))
    DECIMALS = Some amount →
  0 < amount →
  let i := length (actions s) in
  let s' := play parseUnits (mintTokens token s)
              [TypeMintAmount token retyped;
               SettleAction i (SignerResolved (Some signer));
               SettleAction i Submitted;
               SettleAction i Confirmed] in
  requests s' = requests s ++ [SendMint (contract_of typed token) a amount]
  ∧ actions s' = actions s ++ [ActionFinished]
  ∧ statusMessage (view (base s')) = None
  ∧ isRefreshing (view (base s')) = true
  ∧ tasks (base s') = tasks (base s) ++ [RefreshAwaitReads].
Proof.
  intros Ha Hne Htyped Hparse Hpos i s'.
  subst s'. rewrite (mintTokens_starts token s a typed) by done. subst i.
  apply Z.leb_gt in Hpos.
  unfold play. simpl. rewrite lookup_parked_action. simpl.
  rewrite Hparse, Hpos. simpl.
  repeat (rewrite ?insert_parked_action, ?lookup_parked_action; simpl).
  set (b := setStatusMessage (Some "Mint confirmed.") _).
  assert (Hb : hooks b = hooks (base s) ∧ tasks b = tasks (base s)) by done.
  destruct Hb as [Hhooks Htasks].
  destruct (refresh_starts b a typed) as (H1 & H2 & H3 & _); [by rewrite ?Hhooks..|].
  rewrite Htasks in H3. by split_and!.
Qed.

(** X20. A swap or a mint that fails at any stage (no signer, an
    amount that does not parse or is not positive, a thrown encryption,
    submission or confirmation) ends with the matching message and with
    nothing else changed: no request is added, no refresh is entered, no
    read is issued, and the balances on display are as before. *)
Theorem failed_action_changes_nothing s i t r message :
  actions s !! i = Some t →
  action_failure parseUnits t r = Some message →
  let s' := act parseUnits s (SettleAction i r) in
  statusMessage (view (base s')) = Some message
  ∧ requests s' = requests s
  ∧ actions s' = <[i := ActionFinished]> (actions s)
  ∧ tasks (base s') = tasks (base s)
  ∧ calls (base s') = calls (base s)
  ∧ isRefreshing (view (base s')) = isRefreshing (view (base s))
  ∧ encryptedBalances (view (base s')) = encryptedBalances (view (base s))
  ∧ decryptedBalances (view (base s')) = decryptedBalances (view (base s))
  ∧ form s' = form s.
Proof.
  intros Hi Hfail s'. subst s'. simpl. rewrite Hi.
  destruct t as [a typed text d|typed d| | |a typed token raw| | |];
    destruct r as [[sg|]|h p| | |e]; simpl in Hfail; try discriminate; simpl;
    try (injection Hfail as <-; by split_and!).
  - destruct (parseUnits _ _) as [amount|]; [|injection Hfail as <-; by split_and!].
    destruct (amount <=? 0); [|discriminate]. injection Hfail as <-. by split_and!.
  - destruct (parseUnits _ _) as [amount|]; [|injection Hfail as <-; by split_and!].
    destruct (amount <=? 0); [|discriminate]. injection Hfail as <-. by split_and!.
Qed.

End ActionFacts.

(** A parser for the examples: "1.5" is 1500000 base units, "0" is zero,
    anything else does not parse. *)
Lemma requests_name_positive_amounts_witness :
  let parseUnits := λ (x : string) (_ : nat),
                      if String.eqb x "1.5" then Some 1500000
                      else if String.eqb x "0" then Some 0 else None in
  let s := DexActions.play parseUnits (DexActions.opened Session.loaded)
             [DexActions.ClickMint DexApp.weth;
              DexActions.SettleAction 0 (DexActions.SignerResolved (Some "wallet"));
              DexActions.TypeMintAmount DexApp.weth "1.5";
              DexActions.ClickMint DexApp.weth;
              DexActions.SettleAction 1 (DexActions.SignerResolved (Some "wallet"))] in
  DexActions.requests s = [DexActions.SendMint "0xE7H" "0xA11CE" 1500000]
  ∧ DexApp.statusMessage (DexApp.view (DexActions.base s))
    = Some "Enter a positive mint amount."
  ∧ 0 < 1500000.
Proof.
  intros parseUnits s.
  split; [vm_compute; reflexivity|]. split; [vm_compute; reflexivity|].
  apply (proj2 (requests_name_positive_amounts parseUnits Session.loaded
                  [DexActions.ClickMint DexApp.weth;
                   DexActions.SettleAction 0 (DexActions.SignerResolved (Some "wallet"));
                   DexActions.TypeMintAmount DexApp.weth "1.5";
                   DexActions.ClickMint DexApp.weth;
                   DexActions.SettleAction 1 (DexActions.SignerResolved (Some "wallet"))])
           "0xE7H" "0xA11CE" 1500000).
  right. vm_compute. apply list_elem_of_here.
Defined.

Section ActionWitnesses.

Import DexApp DexActions.

Lemma confirmed_swap_refreshes_witness :
  let parseUnits := λ (x : string) (_ : nat),
                      if String.eqb x "1.5" then Some 1500000 else None in
  let s := play parseUnits (opened Session.revealed) [TypeSwapAmount "1.5"] in
  let s' := play parseUnits (executeSwap s)
              [SettleAction 0 (SignerResolved (Some "wallet"));
               ToggleDirection wusdtToWeth;
               SettleAction 0 (Encrypted "0xh4nd1e" "0xpr00f");
               SettleAction 0 Submitted;
               SettleAction 0 Confirmed] in
  requests s' = [EncryptInput "0x5WAP" "0xA11CE" 1500000;
                 SendSwapWethForWusdt "0x5WAP" "0xh4nd1e" "0xpr00f"]
  ∧ statusMessage (view (base s')) = None
  ∧ isRefreshing (view (base s')) = true
  ∧ decrypted_of (decryptedBalances (view (base s'))) weth = Some 5000000
  ∧ decryptedBalances
      (view (step (base s') (Settle 2 (ReadResults "0xaa12" "0xbb23" true true))))
    = {| dec_weth := None; dec_wusdt := None |}.
Proof.
  intros parseUnits s s'.
  destruct (confirmed_swap_refreshes parseUnits s Session.account Session.contracts
              1500000 "wallet" wusdtToWeth "0xh4nd1e" "0xpr00f"
              "0xaa12" "0xbb23" true true)
    as (H1 & _ & H2 & H3 & _ & H4); try reflexivity; try discriminate.
  split; [exact H1|]. split; [exact H2|]. split; [exact H3|].
  split; [vm_compute; reflexivity|exact H4].
Defined.

Lemma confirmed_mint_refreshes_witness :
  let parseUnits := λ (x : string) (_ : nat),
                      if String.eqb x "1.5" then Some 1500000 else None in
  let s := play parseUnits (opened Session.loaded) [TypeMintAmount wusdt "1.5"] in
  let s' := play parseUnits (mintTokens wusdt s)
              [TypeMintAmount wusdt "9";
               SettleAction 0 (SignerResolved (Some "wallet"));
               SettleAction 0 Submitted;
               SettleAction 0 Confirmed] in
  requests s' = [SendMint "0x05D7" "0xA11CE" 1500000]
  ∧ statusMessage (view (base s')) = None
  ∧ isRefreshing (view (base s')) = true.
Proof.
  intros parseUnits s s'.
  destruct (confirmed_mint_refreshes parseUnits wusdt s Session.account Session.contracts
              1500000 "wallet" "9")
    as (H1 & _ & H2 & H3 & _); try reflexivity; try discriminate.
  split; [exact H1|]. split; [exact H2|exact H3].
Defined.

Lemma failed_action_changes_nothing_witness :
  let parseUnits := λ (x : string) (_ : nat),
                      if String.eqb x "1.5" then Some 1500000 else None in
  let s := play parseUnits (opened Session.revealed)
             [TypeSwapAmount "1.5"; ClickSwap;
              SettleAction 0 (SignerResolved (Some "wallet"));
              SettleAction 0 (Encrypted "0xh4nd1e" "0xpr00f")] in
  let s' := act parseUnits s (SettleAction 0 (Threw (ErrorObject "execution reverted"))) in
  statusMessage (view (base s')) = Some "execution reverted"
  ∧ requests s' = requests s
  ∧ tasks (base s') = tasks (base s)
  ∧ decrypted_of (decryptedBalances (view (base s'))) weth = Some 5000000.
Proof.
  intros parseUnits s s'.
  destruct (failed_action_changes_nothing parseUnits s 0%nat SwapAwaitSubmit
              (Threw (ErrorObject "execution reverted")) "execution reverted")
    as (H1 & H2 & _ & H3 & _); try reflexivity.
  split; [exact H1|]. split; [exact H2|]. split; [exact H3|]. vm_compute. reflexivity.
Defined.

End ActionWitnesses.
